(** * Shamir-style secret reconstruction with corrupted shares (shamir.js)

    A shallow embedding of the solver of [src/code.js] and the proofs of the
    properties its specification states.

    Conventions of the embedding.
    - A JavaScript [BigInt] is a [Z]; [/] and [%] on BigInt truncate towards
      zero, hence [Z.quot] and [Z.rem].
    - A JavaScript string is a [string] whose characters are read as the code
      units U+0000..U+00FF; [trim] and [toLowerCase] are the JavaScript
      built-ins on that range.
    - A thrown exception is the [Err] branch of [result]; the three [Error]
      messages of the source and the engine's [TypeError] (a property read on
      [undefined]) are the constructors of [error].
    - Small counters ([n], [k], array positions) are [nat]; [agreeCount]
      starts at [-1] and is a [Z].
    - The generator [combinations] is a cursor ([genState], [genNext]); the
      [for ... of] loop that consumes it takes a number of iterations as
      fuel and returns [None] when they do not end it. *)

From Stdlib Require Import Ascii String DecimalString.
From Stdlib Require Import ZArith Znumtheory QArith Qcanon.
From Stdlib Require Import Bool Arith Lia List Sorted.
Import ListNotations.

Local Open Scope Z_scope.

(** ** Errors and the error monad *)

Inductive error : Type :=
| InvalidDigit (ch : ascii) (base : Z)   (* "Invalid digit '<ch>' for base <base>" *)
| ZeroDenominator                        (* "Zero denominator" *)
| DivisionByZero                         (* "Division by zero" *)
| TypeError.                             (* property read on undefined *)

Inductive result (A : Type) : Type :=
| Ok (a : A)
| Err (e : error).
Arguments Ok {A} a.
Arguments Err {A} e.

Definition bind {A B : Type} (m : result A) (f : A -> result B) : result B :=
  match m with
  | Ok a => f a
  | Err e => Err e
  end.

Notation "x <- m ;; f" := (bind m (fun x => f))
  (at level 61, m at next level, right associativity).
Notation "' pat <- m ;; f" := (bind m (fun x => match x with pat => f end))
  (at level 61, pat pattern, m at next level, right associativity).

(** ** Base-N integer parser *)

Definition charCodeAt (ch : ascii) : Z := Z.of_N (N_of_ascii ch).

(** White space and line terminators of ECMAScript among U+0000..U+00FF:
    TAB, LF, VT, FF, CR, SPACE and NO-BREAK SPACE. *)
Definition isWhiteSpace (ch : ascii) : bool :=
  let c := charCodeAt ch in
  ((9 <=? c) && (c <=? 13)) || (c =? 32) || (c =? 160).

Fixpoint trimStart (s : list ascii) : list ascii :=
  match s with
  | [] => []
  | ch :: rest => if isWhiteSpace ch then trimStart rest else s
  end.

Definition trimEnd (s : list ascii) : list ascii := rev (trimStart (rev s)).

Definition trim (s : list ascii) : list ascii := trimEnd (trimStart s).

(** Lower-casing of one code unit of U+0000..U+00FF: A-Z, and the capital
    letters U+00C0..U+00DE except the multiplication sign U+00D7. *)
Definition toLowerCaseChar (ch : ascii) : ascii :=
  let c := charCodeAt ch in
  if ((65 <=? c) && (c <=? 90))
     || ((192 <=? c) && (c <=? 222) && negb (c =? 215))
  then ascii_of_N (Z.to_N (c + 32))
  else ch.

Definition toLowerCase (s : list ascii) : list ascii := map toLowerCaseChar s.

(** The digit computed for one character (lines 10-12). *)
Definition digitOf (ch : ascii) : Z :=
  let c := charCodeAt ch in
  if (48 <=? c) && (c <=? 57) then c - 48 else c - 97 + 10.

(** The [for (const ch of ...)] loop of lines 9-17. *)
Fixpoint parseLoop (base : Z) (chars : list ascii) (val : Z) : result Z :=
  match chars with
  | [] => Ok val
  | ch :: rest =>
      let digit := digitOf ch in
      if (digit <? 0) || (digit >=? base) then Err (InvalidDigit ch base)
      else parseLoop base rest (val * base + digit)
  end.

Definition parseBigIntInBase (str : string) (base : Z) : result Z :=
  parseLoop base (toLowerCase (trim (list_ascii_of_string str))) 0.

(** ** Exact rational arithmetic *)

Definition bigIntAbs (a : Z) : Z := if a <? 0 then - a else a.

(** The [while (b !== 0n)] loop of [bigIntGcd].  On non-negative operands
    [b] strictly decreases, so [S (Z.to_nat b)] iterations always reach
    [b = 0] (lemma [gcdLoop_enough]); the [O] branch is never taken. *)
Fixpoint gcdLoop (fuel : nat) (a b : Z) : Z :=
  match fuel with
  | O => a
  | S fuel' => if b =? 0 then a else gcdLoop fuel' b (Z.rem a b)
  end.

Definition bigIntGcd (a b : Z) : Z :=
  let a := bigIntAbs a in
  let b := bigIntAbs b in
  gcdLoop (S (Z.to_nat b)) a b.

Module Rational.

(** The fields [n] and [d] of the class. *)
Record t : Type := mk { n : Z; d : Z }.

(** [constructor(n, d)] *)
Definition new (n0 d0 : Z) : result t :=
  if d0 =? 0 then Err ZeroDenominator
  else
    let '(n1, d1) := if d0 <? 0 then (- n0, - d0) else (n0, d0) in
    let g := bigIntGcd n1 d1 in
    Ok (mk (Z.quot n1 g) (Z.quot d1 g)).

Definition fromBigInt (x : Z) : result t := new x 1.

Definition add (this other : t) : result t :=
  new (n this * d other + n other * d this) (d this * d other).

Definition sub (this other : t) : result t :=
  new (n this * d other - n other * d this) (d this * d other).

Definition mul (this other : t) : result t :=
  new (n this * n other) (d this * d other).

Definition div (this other : t) : result t :=
  if n other =? 0 then Err DivisionByZero
  else new (n this * d other) (d this * n other).

End Rational.

(** ** Lagrange interpolation *)

(** An element of [points]. *)
Module Point.
Record t : Type := mk { x : Z; y : Z }.
End Point.

(** The inner [for j] loop (lines 53-58), walking [points] from position [j]. *)
Fixpoint basisLoop (ps : list Point.t) (j i : nat) (x0 xi : Z)
         (num den : Rational.t) : result (Rational.t * Rational.t) :=
  match ps with
  | [] => Ok (num, den)
  | pj :: ps' =>
      if Nat.eqb j i then basisLoop ps' (S j) i x0 xi num den
      else
        a <- Rational.new (x0 - Point.x pj) 1 ;;
        num' <- Rational.mul num a ;;
        b <- Rational.new (xi - Point.x pj) 1 ;;
        den' <- Rational.mul den b ;;
        basisLoop ps' (S j) i x0 xi num' den'
  end.

(** The outer [for i] loop (lines 48-61), walking [points] from position [i]. *)
Fixpoint sumLoop (points ps : list Point.t) (i : nat) (x0 : Z)
         (sum : Rational.t) : result Rational.t :=
  match ps with
  | [] => Ok sum
  | pi :: ps' =>
      num0 <- Rational.new 1 1 ;;
      den0 <- Rational.new 1 1 ;;
      '(num, den) <- basisLoop points 0 i x0 (Point.x pi) num0 den0 ;;
      li <- Rational.div num den ;;
      yi <- Rational.fromBigInt (Point.y pi) ;;
      term <- Rational.mul yi li ;;
      sum' <- Rational.add sum term ;;
      sumLoop points ps' (S i) x0 sum'
  end.

Definition lagrangeEvalAt (points : list Point.t) (x0 : Z) : result Rational.t :=
  sum0 <- Rational.new 0 1 ;;
  sumLoop points points 0 x0 sum0.

(** ** Subset combinator *)

(** [l[i] = v] for a position inside the array (the generator never writes
    outside [idx]). *)
Fixpoint setNth {A : Type} (i : nat) (v : A) (l : list A) : list A :=
  match l, i with
  | [], _ => []
  | _ :: t, O => v :: t
  | h :: t, S i' => h :: setNth i' v t
  end.

(** [while (i >= 0 && idx[i] === i + n - k) i--], started at [i = i1 - 1]:
    [Some i] when the loop stops at a position [i >= 0], [None] when it
    leaves with [i < 0]. *)
Fixpoint scanDown (idx : list nat) (n k : nat) (i1 : nat) : option nat :=
  match i1 with
  | O => None
  | S i =>
      if Z.of_nat (nth i idx O) =? Z.of_nat i + Z.of_nat n - Z.of_nat k
      then scanDown idx n k i
      else Some i
  end.

(** [for (let j = ...; j < k; j++) idx[j] = idx[j - 1] + 1], with [cnt]
    iterations left. *)
Fixpoint resetLoop (cnt j : nat) (idx : list nat) : list nat :=
  match cnt with
  | O => idx
  | S cnt' => resetLoop cnt' (S j) (setNth j (nth (j - 1) idx O + 1)%nat idx)
  end.

(** Lines 71-75: from the index array just yielded to the next one, or
    [None] at the [break]. *)
Definition advance (n k : nat) (idx : list nat) : option (list nat) :=
  match scanDown idx n k k with
  | None => None
  | Some i =>
      let idx1 := setNth i (nth i idx O + 1)%nat idx in
      Some (resetLoop (k - (i + 1)) (i + 1) idx1)
  end.

(** Where the generator is suspended. *)
Inductive genState : Type :=
| GenStart                       (* not started *)
| GenEmptyYielded                (* at the [yield []] of line 68 *)
| GenYielded (idx : list nat).   (* at the [yield] of line 70 *)

(** [idx.map(i => arr[i])]; [None] is [undefined]. *)
Definition pick {A : Type} (arr : list A) (idx : list nat) : list (option A) :=
  map (nth_error arr) idx.

(** One [next()] of the generator [combinations(arr, k)]: the subset
    yielded and the new state, or [None] once the generator has returned. *)
Definition genNext {A : Type} (arr : list A) (k : nat) (st : genState)
  : option (list (option A) * genState) :=
  match st with
  | GenStart =>
      let idx := seq 0 k in
      if Nat.eqb k 0 then Some ([], GenEmptyYielded)
      else Some (pick arr idx, GenYielded idx)
  | GenEmptyYielded => None
  | GenYielded idx =>
      match advance (length arr) k idx with
      | None => None
      | Some idx' => Some (pick arr idx', GenYielded idx')
      end
  end.

(** All the subsets the generator yields when drained; [None] when [fuel]
    calls of [next()] do not exhaust it. *)
Fixpoint genDrain {A : Type} (fuel : nat) (arr : list A) (k : nat)
         (st : genState) : option (list (list (option A))) :=
  match fuel with
  | O => None
  | S fuel' =>
      match genNext arr k st with
      | None => Some []
      | Some (v, st') =>
          match genDrain fuel' arr k st' with
          | None => None
          | Some vs => Some (v :: vs)
          end
      end
  end.

Definition combinations {A : Type} (fuel : nat) (arr : list A) (k : nat)
  : option (list (list (option A))) :=
  genDrain fuel arr k GenStart.

(** ** Consistency solver *)

(** An element of [shares]. *)
Module Share.
Record t : Type := mk { idx : Z; x : Z; y : Z }.
End Share.

(** One property of the input object other than ["keys"]: [Number(prop)],
    [Number(base)] and the [value] string. *)
Record Entry : Type := mkEntry { prop : Z; base : Z; value : string }.

(** The input object: [keys.n], [keys.k] and the share properties in the
    order of [Object.keys]. *)
Record Input : Type := mkInput { keys_n : nat; keys_k : nat; entries : list Entry }.

(** The object returned. *)
Record Output : Type := mkOutput {
  k : nat;
  degree : Z;
  secretF0 : string;
  consistentShareIndices : list Z;
  inconsistentShareIndices : list Z
}.

(** The fields a [best] object has once a candidate was stored. *)
Record Found : Type := mkFound {
  f_secretF0 : Z;
  f_subset : list (option nat);
  f_agrees : list bool
}.

(** [best]: [{ agreeCount: -1 }] at first, all four fields later. *)
Record Best : Type := mkBest { agreeCount : Z; found : option Found }.

(** Lines 85-92. *)
Fixpoint readShares (es : list Entry) : result (list Share.t) :=
  match es with
  | [] => Ok []
  | e :: es' =>
      y <- parseBigIntInBase (value e) (base e) ;;
      rest <- readShares es' ;;
      Ok (Share.mk (prop e) (prop e) y :: rest)
  end.

(** [shares.sort((a, b) => a.idx - b.idx)]: the stable sort by [idx]. *)
Fixpoint insertShare (s : Share.t) (l : list Share.t) : list Share.t :=
  match l with
  | [] => [s]
  | h :: t => if Share.idx s <=? Share.idx h then s :: l else h :: insertShare s t
  end.

Fixpoint sortShares (l : list Share.t) : list Share.t :=
  match l with
  | [] => []
  | s :: t => insertShare s (sortShares t)
  end.

(** Line 99; [shares[i]] is [undefined] for [i] undefined or out of range. *)
Fixpoint subsetOf (shares : list Share.t) (idxs : list (option nat))
  : result (list Point.t) :=
  match idxs with
  | [] => Ok []
  | i :: idxs' =>
      match i with
      | None => Err TypeError
      | Some i' =>
          match nth_error shares i' with
          | None => Err TypeError
          | Some s =>
              rest <- subsetOf shares idxs' ;;
              Ok (Point.mk (Share.x s) (Share.y s) :: rest)
          end
      end
  end.

(** Lines 105-112, with [cnt] iterations left from position [i]. *)
Fixpoint agreeLoop (shares : list Share.t) (subset : list Point.t)
         (cnt i : nat) (agreeMask : list bool) (count : Z)
  : result (list bool * Z) :=
  match cnt with
  | O => Ok (agreeMask, count)
  | S cnt' =>
      match nth_error shares i with
      | None => Err TypeError
      | Some s =>
          expected <- lagrangeEvalAt subset (Share.x s) ;;
          if (Rational.d expected =? 1) && (Rational.n expected =? Share.y s)
          then agreeLoop shares subset cnt' (S i) (setNth i true agreeMask) (count + 1)
          else agreeLoop shares subset cnt' (S i) agreeMask count
      end
  end.

(** Lines 99-112 for one subset: [None] at the [continue] of line 101,
    else [f0.n], the mask and the count. *)
Definition evalCandidate (shares : list Share.t) (n : nat)
           (idxs : list (option nat)) : result (option (Z * list bool * Z)) :=
  subset <- subsetOf shares idxs ;;
  f0 <- lagrangeEvalAt subset 0 ;;
  if negb (Rational.d f0 =? 1) then Ok None
  else
    '(agreeMask, count) <- agreeLoop shares subset n 0 (repeat false n) 0 ;;
    Ok (Some (Rational.n f0, agreeMask, count)).

(** Lines 113-116: the new [best] and whether the loop breaks. *)
Definition updateBest (n : nat) (idxs : list (option nat))
           (cand : option (Z * list bool * Z)) (best : Best) : Best * bool :=
  match cand with
  | None => (best, false)
  | Some (f0n, agreeMask, count) =>
      if count >? agreeCount best
      then (mkBest count (Some (mkFound f0n idxs agreeMask)), count =? Z.of_nat n)
      else (best, false)
  end.

(** The [for (const idxs of combinations(indices, k))] loop; [None] when
    [fuel] iterations do not end it. *)
Fixpoint search (fuel : nat) (shares : list Share.t) (n k : nat)
         (indices : list nat) (st : genState) (best : Best)
  : option (result Best) :=
  match fuel with
  | O => None
  | S fuel' =>
      match genNext indices k st with
      | None => Some (Ok best)
      | Some (idxs, st') =>
          match evalCandidate shares n idxs with
          | Err e => Some (Err e)
          | Ok cand =>
              let '(best', stop) := updateBest n idxs cand best in
              if stop then Some (Ok best')
              else search fuel' shares n k indices st' best'
          end
      end
  end.

(** Lines 119-123, with [cnt] iterations left from position [i]. *)
Fixpoint classify (shares : list Share.t) (best : Best) (cnt i : nat)
         (consistent inconsistent : list Z) : result (list Z * list Z) :=
  match cnt with
  | O => Ok (consistent, inconsistent)
  | S cnt' =>
      match found best with
      | None => Err TypeError
      | Some f =>
          match nth_error shares i with
          | None => Err TypeError
          | Some s =>
              if nth i (f_agrees f) false
              then classify shares best cnt' (S i)
                            (consistent ++ [Share.idx s]) inconsistent
              else classify shares best cnt' (S i)
                            consistent (inconsistent ++ [Share.idx s])
          end
      end
  end.

(** [BigInt.prototype.toString()] *)
Definition bigIntToString (z : Z) : string := NilZero.string_of_int (Z.to_int z).

(** Lines 119-130. *)
Definition finish (shares : list Share.t) (n k : nat) (best : Best)
  : result Output :=
  '(consistent, inconsistent) <- classify shares best n 0 [] [] ;;
  match found best with
  | None => Err TypeError
  | Some f =>
      Ok (mkOutput k (Z.of_nat k - 1) (bigIntToString (f_secretF0 f))
                   consistent inconsistent)
  end.

(** [solveShamirLike(inputObj)]; [None] when [fuel] iterations of the search
    loop do not end it. *)
Definition solveShamirLike (fuel : nat) (inputObj : Input) : option (result Output) :=
  let n := keys_n inputObj in
  let k := keys_k inputObj in
  match readShares (entries inputObj) with
  | Err e => Some (Err e)
  | Ok shares0 =>
      let shares := sortShares shares0 in
      let best := mkBest (-1) None in
      let indices := seq 0 (length shares) in
      match search fuel shares n k indices GenStart best with
      | None => None
      | Some (Err e) => Some (Err e)
      | Some (Ok best') => Some (finish shares n k best')
      end
  end.

(** * Specification-level definitions *)

(** ** Parser *)

(** The value of a digit character as the specification has it: [0-9] and
    [a-z] only. *)
Definition digitValue (ch : ascii) : option Z :=
  let c := charCodeAt ch in
  if (48 <=? c) && (c <=? 57) then Some (c - 48)
  else if (97 <=? c) && (c <=? 122) then Some (c - 97 + 10)
  else None.

(** A digit or letter whose value is below the base. *)
Definition validDigit (base : Z) (ch : ascii) : Prop :=
  exists v, digitValue ch = Some v /\ v < base.

(** The integer a digit sequence represents, most significant digit first. *)
Fixpoint positional (base : Z) (ds : list Z) : Z :=
  match ds with
  | [] => 0
  | dg :: rest => dg * base ^ Z.of_nat (length rest) + positional base rest
  end.

(** The characters the loop of [parseBigIntInBase] runs over. *)
Definition normalized (str : string) : list ascii :=
  toLowerCase (trim (list_ascii_of_string str)).

(** The six characters between ['Z'] and ['a']. *)
Definition inGap (ch : ascii) : Prop := 91 <= charCodeAt ch <= 96.

(** ** Rationals *)

(** The canonical form of the specification. *)
Definition canonical (r : Rational.t) : Prop :=
  0 < Rational.d r /\ Z.gcd (Z.abs (Rational.n r)) (Rational.d r) = 1.

(** The rational number a [Rational] object stands for. *)
Definition toQc (r : Rational.t) : Qc :=
  Q2Qc (Qmake (Rational.n r) (Z.to_pos (Rational.d r))).

(** An integer as a rational number. *)
Definition Zc (z : Z) : Qc := Q2Qc (inject_Z z).

(** The [Rational] objects the program can hold: built by the constructor,
    or by an operation on such objects. *)
Inductive produced : Rational.t -> Prop :=
| produced_new n0 d0 r :
    Rational.new n0 d0 = Ok r -> produced r
| produced_fromBigInt z r :
    Rational.fromBigInt z = Ok r -> produced r
| produced_add a b r :
    produced a -> produced b -> Rational.add a b = Ok r -> produced r
| produced_sub a b r :
    produced a -> produced b -> Rational.sub a b = Ok r -> produced r
| produced_mul a b r :
    produced a -> produced b -> Rational.mul a b = Ok r -> produced r
| produced_div a b r :
    produced a -> produced b -> Rational.div a b = Ok r -> produced r.

(** ** Interpolation *)

(** The sum and the product of a list of rational numbers. *)
Definition sumQc (l : list Qc) : Qc := fold_right Qcplus 0%Qc l.

Definition prodQc (l : list Qc) : Qc := fold_right Qcmult 1%Qc l.

(** The elements of a list with their positions, counted from [j]. *)
Definition enumFrom {A : Type} (j : nat) (l : list A) : list (nat * A) :=
  combine (seq j (length l)) l.

Definition enumerate {A : Type} (l : list A) : list (nat * A) := enumFrom 0 l.

(** The positions other than [i]. *)
Definition skip {A : Type} (i : nat) (l : list (nat * A)) : list (nat * A) :=
  filter (fun jp => negb (Nat.eqb (fst jp) i)) l.

(** The Lagrange basis polynomial of position [i] (abscissa [xi]) at [x]:
    the product over [j <> i] of [(x - x_j) / (x_i - x_j)]. *)
Definition basisQc (points : list Point.t) (i : nat) (xi : Z) (x : Qc) : Qc :=
  prodQc (map (fun jp => (x - Zc (Point.x (snd jp))) / (Zc xi - Zc (Point.x (snd jp))))%Qc
              (skip i (enumerate points))).

(** The Lagrange form: the sum over [i] of [y_i] times the basis polynomial. *)
Definition lagrangeQc (points : list Point.t) (x : Qc) : Qc :=
  sumQc (map (fun ip => Zc (Point.y (snd ip))
                        * basisQc points (fst ip) (Point.x (snd ip)) x)%Qc
             (enumerate points)).

(** Polynomials over the rationals, as the lists of their coefficients from
    the constant one up: a list of length at most [k] is a polynomial of
    degree at most [k - 1]. *)
Fixpoint peval (p : list Qc) (x : Qc) : Qc :=
  match p with
  | [] => 0%Qc
  | c :: p' => (c + x * peval p' x)%Qc
  end.

(** [p] passes through the points. *)
Definition interpolates (p : list Qc) (points : list Point.t) : Prop :=
  forall pt, In pt points -> peval p (Zc (Point.x pt)) = Zc (Point.y pt).

(** Two positions of [points] carry the same abscissa. *)
Definition duplicateX (points : list Point.t) : Prop :=
  exists i j pi pj, i <> j /\ nth_error points i = Some pi /\
                    nth_error points j = Some pj /\ Point.x pi = Point.x pj.

(** No other position carries the abscissa [xi]. *)
Definition aloneAt (points : list Point.t) (i : nat) (xi : Z) : Prop :=
  forall jp, In jp (skip i (enumerate points)) -> Point.x (snd jp) <> xi.

(** One iteration of the outer loop (lines 49-60). *)
Definition termOf (points : list Point.t) (i : nat) (pi : Point.t) (x0 : Z)
  : result Rational.t :=
  num0 <- Rational.new 1 1 ;;
  den0 <- Rational.new 1 1 ;;
  '(num, den) <- basisLoop points 0 i x0 (Point.x pi) num0 den0 ;;
  li <- Rational.div num den ;;
  yi <- Rational.fromBigInt (Point.y pi) ;;
  Rational.mul yi li.

(** *** Polynomial operations *)

(** The sum of two polynomials, and the product by a constant. *)
Fixpoint padd (p q : list Qc) : list Qc :=
  match p, q with
  | [], _ => q
  | _, [] => p
  | a :: p', b :: q' => (a + b)%Qc :: padd p' q'
  end.

Definition pscale (c : Qc) (p : list Qc) : list Qc := map (Qcmult c) p.

(** [(X - a) * p] *)
Definition pmulLin (a : Qc) (p : list Qc) : list Qc :=
  padd (0%Qc :: p) (pscale (- a)%Qc p).

(** The quotient of [p] by [X - a] (synthetic division). *)
Fixpoint pdivLin (a : Qc) (p : list Qc) : list Qc :=
  match p with
  | [] => []
  | _ :: p' =>
      match p' with
      | [] => []
      | _ :: _ => peval p' a :: pdivLin a p'
      end
  end.

(** The basis polynomial of abscissa [xi] over the other positions [l]. *)
Fixpoint basisPoly (l : list (nat * Point.t)) (xi : Z) : list Qc :=
  match l with
  | [] => [1%Qc]
  | jp :: l' =>
      pscale (/ (Zc xi - Zc (Point.x (snd jp))))%Qc
             (pmulLin (Zc (Point.x (snd jp))) (basisPoly l' xi))
  end.

(** The interpolating polynomial in Lagrange form. *)
Definition lagrangePoly (points : list Point.t) : list Qc :=
  fold_right
    (fun ip acc =>
       padd (pscale (Zc (Point.y (snd ip)))
                    (basisPoly (skip (fst ip) (enumerate points)) (Point.x (snd ip))))
            acc)
    [] (enumerate points).

(** ** Subsets *)

(** The number of [k]-element subsets of an [n]-element set (Pascal's rule). *)
Fixpoint binomial (n k : nat) : nat :=
  match n, k with
  | _, O => 1
  | O, S _ => 0
  | S n', S k' => binomial n' k' + binomial n' k
  end.



(** The [k]-element subsets of the positions [lo .. lo+cnt-1]: those that
    contain [lo], then those that do not. *)
Fixpoint subsetsFrom (lo cnt k : nat) {struct cnt} : list (list nat) :=
  match k with
  | O => [[]]
  | S k' =>
      match cnt with
      | O => []
      | S cnt' =>
          map (cons lo) (subsetsFrom (S lo) cnt' k') ++ subsetsFrom (S lo) cnt' k
      end
  end.

(** The successor of an index tuple, by recursion on the tuple: advance the
    tail if it can be advanced, else the head if it is not at its maximum. *)
Fixpoint successor (n : nat) (t : list nat) : option (list nat) :=
  match t with
  | [] => None
  | x :: rest =>
      match successor n rest with
      | Some rest' => Some (x :: rest')
      | None =>
          if Nat.eqb (x + length t) n then None
          else Some (seq (S x) (length t))
      end
  end.

(** The position of the rightmost index that is not at its maximum. *)
Fixpoint lastFree (n : nat) (t : list nat) : option nat :=
  match t with
  | [] => None
  | x :: rest =>
      match lastFree n rest with
      | Some i => Some (S i)
      | None => if Nat.eqb (x + length t) n then None else Some O
      end
  end.

(** The tuple with position [i] advanced and the later positions reset. *)
Definition bump (idx : list nat) (i : nat) : list nat :=
  firstn i idx ++ seq (S (nth i idx O)) (length idx - i).

(** A list of tuples in which each is the successor of the one before. *)
Inductive chain (n : nat) : list (list nat) -> Prop :=
| chain_one t : chain n [t]
| chain_cons t u l : successor n t = Some u -> chain n (u :: l) -> chain n (t :: u :: l).

(** The subsets a generator yields from a state on, and the state it is
    left in. *)
Inductive genYields {A : Type} (arr : list A) (k : nat)
  : genState -> list (list (option A)) -> genState -> Prop :=
| genYields_nil st : genYields arr k st [] st
| genYields_cons st v st1 vs st2 :
    genNext arr k st = Some (v, st1) -> genYields arr k st1 vs st2 ->
    genYields arr k st (v :: vs) st2.

(** The index array of a suspended generator has [k] entries. *)
Definition genOk (k : nat) (st : genState) : Prop :=
  match st with
  | GenYielded t => length t = k
  | _ => True
  end.

(** ** Solver *)

(** The [best] object that stores the candidate [c] of the subset [idxs]. *)
Definition winner (idxs : list (option nat)) (c : Z * list bool * Z) : Best :=
  let '(f0n, agreeMask, count) := c in
  mkBest count (Some (mkFound f0n idxs agreeMask)).

(** The subset [v] is evaluated without error, and is discarded or has an
    agreement count below [bound] (strictly below it, when [strict]). *)
Definition beaten (shares : list Share.t) (n : nat) (bound : Z) (strict : bool)
           (v : list (option nat)) : Prop :=
  exists c, evalCandidate shares n v = Ok c /\
            match c with
            | None => True
            | Some (_, _, count) => if strict then count < bound else count <= bound
            end.

(** Whether the share at position [j] agrees with the polynomial through
    [subset] (the test of line 108). *)
Definition agreeAt (shares : list Share.t) (subset : list Point.t) (j : nat) : bool :=
  match nth_error shares j with
  | None => false
  | Some s =>
      match lagrangeEvalAt subset (Share.x s) with
      | Ok expected =>
          (Rational.d expected =? 1) && (Rational.n expected =? Share.y s)
      | Err _ => false
      end
  end.

(** The declared index of the share at position [j]. *)
Definition idxAt (shares : list Share.t) (j : nat) : Z :=
  match nth_error shares j with
  | Some s => Share.idx s
  | None => 0
  end.

(** An input none of whose subsets interpolates to an integer at 0. *)
Definition unfit : Input :=
  mkInput 2 2 [mkEntry 1 10 "0"; mkEntry 3 10 "1"].

(** The concrete scenario of the specification. *)
Definition scenario : Input :=
  mkInput 4 3 [mkEntry 1 10 "6"; mkEntry 2 10 "15"; mkEntry 3 10 "28";
               mkEntry 4 10 "999"].

(** An input whose [keys.n] is below its number of shares. *)
Definition skewed : Input :=
  mkInput 2 2 [mkEntry 1 10 "0"; mkEntry 3 10 "1"; mkEntry 4 10 "3"].

(** The point of the share at position [i]. *)
Definition pointAt (shares : list Share.t) (i : nat) : Point.t :=
  match nth_error shares i with
  | Some s => Point.mk (Share.x s) (Share.y s)
  | None => Point.mk 0 0
  end.

(** What a search that ended with [best'] has done, from the state [st] and
    the candidate [best]: it evaluated the subsets [vs], a prefix of what the
    generator yields; no subset of [vs] has a count above the final one; the
    final [best'] is [best], or the candidate of a subset of [vs] before
    which every subset has a strictly smaller count; and the loop ended on
    an exhausted generator with a final count below [n], or at the last
    subset of [vs], whose count is [n]. *)
Definition finished (shares : list Share.t) (n k : nat) (indices : list nat)
           (st : genState) (best best' : Best) : Prop :=
  exists vs st',
    genYields indices k st vs st' /\
    Forall (beaten shares n (agreeCount best') false) vs /\
    (best' = best \/
     exists pre idxs post c,
       vs = pre ++ idxs :: post /\
       evalCandidate shares n idxs = Ok (Some c) /\
       best' = winner idxs c /\
       agreeCount best < agreeCount best' /\
       Forall (beaten shares n (agreeCount best') true) pre) /\
    ((genNext indices k st' = None /\ agreeCount best' < Z.of_nat n) \/
     (agreeCount best' = Z.of_nat n /\
      exists pre idxs c,
        vs = pre ++ [idxs] /\
        evalCandidate shares n idxs = Ok (Some c) /\
        best' = winner idxs c)).

(** The subsets of [pre] are evaluated without error and none has the
    count [n]. *)
Definition notFull (shares : list Share.t) (n : nat)
           (pre : list (list (option nat))) : Prop :=
  Forall (fun v => exists c, evalCandidate shares n v = Ok c /\
                             forall x, c = Some x -> snd x <> Z.of_nat n) pre.

(** Three shares of [y = 2x + 1]. *)
Definition lineShares : list Share.t :=
  [Share.mk 1 1 3; Share.mk 2 2 5; Share.mk 3 3 7].

(** The shares of [scenario], and the [best] its search ends with. *)
Definition scenarioShares : list Share.t :=
  [Share.mk 1 1 6; Share.mk 2 2 15; Share.mk 3 3 28; Share.mk 4 4 999].

Definition scenarioBest : Best :=
  mkBest 3 (Some (mkFound 1 [Some 0; Some 1; Some 2]%nat [true; true; true; false])).

(** * Proofs *)

(** From an equation in [Qc] to the equation of the underlying fractions. *)
Ltac qc_to_q :=
  apply Qc_is_canon;
  unfold Qcdiv, Qcinv, Qcplus, Qcmult, Qcopp, Q2Qc; cbn [this];
  rewrite ?Qred_correct.

(** ** The embedding on small inputs *)

Example parse_ff : parseBigIntInBase " Ff " 16 = Ok 255.
Proof. reflexivity. Qed.

Example lagrange_quadratic :
  lagrangeEvalAt [Point.mk 1 6; Point.mk 2 15; Point.mk 3 28] 0
  = Ok (Rational.mk 1 1).
Proof. reflexivity. Qed.

Example combinations_4_2 :
  combinations 10 [0;1;2;3]%nat 2 =
  Some (map (map Some) [[0;1];[0;2];[0;3];[1;2];[1;3];[2;3]]%nat).
Proof. reflexivity. Qed.

(** ** Parser *)

Lemma charCodeAt_range ch : 0 <= charCodeAt ch < 256.
Proof.
  unfold charCodeAt. pose proof (N_ascii_bounded ch) as H. lia.
Qed.

Lemma trimStart_blank s : forallb isWhiteSpace s = true -> trimStart s = [].
Proof.
  induction s as [|ch s IH]; simpl; [reflexivity|].
  intros H. apply andb_true_iff in H as [Hc Hs]. rewrite Hc. auto.
Qed.

Lemma normalized_blank str :
  forallb isWhiteSpace (list_ascii_of_string str) = true -> normalized str = [].
Proof.
  intros H. unfold normalized, trim. rewrite (trimStart_blank _ H). reflexivity.
Qed.

Lemma digitOf_valid base ch v :
  digitValue ch = Some v -> v < base ->
  digitOf ch = v /\ ((v <? 0) || (v >=? base)) = false.
Proof.
  unfold digitValue, digitOf. intros H Hv.
  destruct ((48 <=? charCodeAt ch) && (charCodeAt ch <=? 57)) eqn:E1.
  - injection H as <-. split; [reflexivity|].
    apply andb_true_iff in E1 as [E1 _]. lia.
  - destruct ((97 <=? charCodeAt ch) && (charCodeAt ch <=? 122)) eqn:E2;
      [|discriminate].
    injection H as <-. split; [reflexivity|].
    apply andb_true_iff in E2 as [E2 _]. lia.
Qed.

(** A lower-cased character is never one of [A-Z]. *)
Lemma toLowerCaseChar_not_upper ch :
  ~ 65 <= charCodeAt (toLowerCaseChar ch) <= 90.
Proof.
  destruct ch as [[] [] [] [] [] [] [] []]; vm_compute;
    intros [H1 H2]; try (now apply H1); now apply H2.
Qed.

(** Outside the gap, the loop's test rejects exactly the invalid digits. *)
Lemma digitOf_invalid base ch :
  base <= 36 -> ~ 65 <= charCodeAt ch <= 90 -> ~ inGap ch ->
  ~ validDigit base ch ->
  ((digitOf ch <? 0) || (digitOf ch >=? base)) = true.
Proof.
  unfold inGap, validDigit, digitValue, digitOf. intros Hb Hu Hg Hv.
  pose proof (charCodeAt_range ch) as Hr.
  destruct ((48 <=? charCodeAt ch) && (charCodeAt ch <=? 57)) eqn:E1.
  - destruct (Z.ltb_spec (charCodeAt ch - 48) base) as [Hlt|Hge].
    + exfalso. apply Hv. eauto.
    + apply orb_true_iff. right. lia.
  - destruct ((97 <=? charCodeAt ch) && (charCodeAt ch <=? 122)) eqn:E2.
    + destruct (Z.ltb_spec (charCodeAt ch - 97 + 10) base) as [Hlt|Hge].
      * exfalso. apply Hv. eauto.
      * apply orb_true_iff. right. lia.
    + apply andb_false_iff in E1, E2. apply orb_true_iff.
      destruct (Z.ltb_spec (charCodeAt ch - 97 + 10) 0); [now left|right].
      lia.
Qed.

Lemma parseLoop_positional base chars ds val :
  Forall2 (fun ch v => digitValue ch = Some v /\ v < base) chars ds ->
  parseLoop base chars val
  = Ok (val * base ^ Z.of_nat (length ds) + positional base ds).
Proof.
  intros H. revert val.
  induction H as [|ch v chars ds [Hv Hlt] _ IH]; intros val.
  - simpl. f_equal. lia.
  - cbn [parseLoop positional length].
    destruct (digitOf_valid base ch v Hv Hlt) as [-> ->].
    rewrite IH. f_equal.
    rewrite Nat2Z.inj_succ, Z.pow_succ_r by lia. ring.
Qed.

Lemma positional_nonneg base ds :
  0 <= base -> Forall (fun v => 0 <= v) ds -> 0 <= positional base ds.
Proof.
  intros Hb H. induction H as [|v ds Hv _ IH]; simpl; [lia|].
  assert (0 <= base ^ Z.of_nat (length ds)) by (apply Z.pow_nonneg; lia).
  nia.
Qed.

Lemma digitValue_nonneg ch v : digitValue ch = Some v -> 0 <= v.
Proof.
  unfold digitValue.
  destruct ((48 <=? charCodeAt ch) && (charCodeAt ch <=? 57)) eqn:E1.
  - intros [= <-]. apply andb_true_iff in E1 as [E1 _]. lia.
  - destruct ((97 <=? charCodeAt ch) && (charCodeAt ch <=? 122)) eqn:E2;
      [|discriminate].
    intros [= <-]. apply andb_true_iff in E2 as [E2 _]. lia.
Qed.

(** The parser's contract, on the strings that have no character of the gap. *)
Lemma parseLoop_outside_gap base chars val :
  base <= 36 ->
  Forall (fun ch => ~ 65 <= charCodeAt ch <= 90 /\ ~ inGap ch) chars ->
  (Forall (validDigit base) chars ->
   exists ds, Forall2 (fun ch v => digitValue ch = Some v /\ v < base) chars ds /\
              parseLoop base chars val
              = Ok (val * base ^ Z.of_nat (length ds) + positional base ds)) /\
  (Exists (fun ch => ~ validDigit base ch) chars ->
   exists ch, In ch chars /\ ~ validDigit base ch /\
              parseLoop base chars val = Err (InvalidDigit ch base)).
Proof.
  intros Hb Hgap. split.
  - intros Hall.
    assert (exists ds, Forall2 (fun ch v => digitValue ch = Some v /\ v < base) chars ds)
      as [ds Hds].
    { clear Hgap. induction Hall as [|ch chars [v Hv] _ [ds IH]].
      - exists []. constructor.
      - exists (v :: ds). constructor; assumption. }
    exists ds. split; [assumption|]. now apply parseLoop_positional.
  - intros Hex. revert val.
    induction chars as [|ch chars IH]; intros val; [inversion Hex|].
    inversion Hgap as [|? ? [Hu Hg] Hgap']; subst.
    cbn [parseLoop].
    destruct ((digitOf ch <? 0) || (digitOf ch >=? base)) eqn:E.
    + exists ch. split; [now left|]. split; [|reflexivity].
      intros [v [Hv Hlt]]. destruct (digitOf_valid base ch v Hv Hlt) as [E1 E2].
      rewrite E1 in E. congruence.
    + inversion Hex as [? ? Hbad|? ? Hex']; subst.
      * rewrite (digitOf_invalid base ch Hb Hu Hg Hbad) in E. discriminate.
      * destruct (IH Hgap' Hex' (val * base + digitOf ch)) as [c [Hin [Hc Hp]]].
        exists c. split; [now right|]. split; assumption.
Qed.


Lemma validDigit_dec base ch : {validDigit base ch} + {~ validDigit base ch}.
Proof.
  unfold validDigit. destruct (digitValue ch) as [v|].
  - destruct (Z_lt_dec v base) as [Hlt|Hge].
    + left. eauto.
    + right. intros [v' [[= <-] Hlt]]. contradiction.
  - right. intros [v' [[=] _]].
Qed.

(** The contract of the parser holds for every string whose normalized form
    has no character of the gap: an invalid digit is reported, and a string
    of valid digits is read as the integer it represents. *)
Lemma parseBigIntInBase_outside_gap (str : string) (base : Z) :
  2 <= base <= 36 ->
  Forall (fun ch => ~ inGap ch) (normalized str) ->
  ((exists ch, parseBigIntInBase str base = Err (InvalidDigit ch base))
   <-> Exists (fun ch => ~ validDigit base ch) (normalized str)) /\
  (Forall (validDigit base) (normalized str) ->
   exists ds,
     Forall2 (fun ch v => digitValue ch = Some v /\ v < base) (normalized str) ds /\
     parseBigIntInBase str base = Ok (positional base ds) /\
     0 <= positional base ds).
Proof.
  intros Hb Hgap. unfold parseBigIntInBase. fold (normalized str).
  assert (Hlow : Forall (fun ch => ~ 65 <= charCodeAt ch <= 90 /\ ~ inGap ch)
                        (normalized str)).
  { apply Forall_forall. intros ch Hin. split.
    - unfold normalized, toLowerCase in Hin. apply in_map_iff in Hin.
      destruct Hin as [c [<- _]]. apply toLowerCaseChar_not_upper.
    - revert ch Hin. now apply Forall_forall. }
  destruct (parseLoop_outside_gap base (normalized str) 0 (proj2 Hb) Hlow)
    as [Hgood Hbad].
  split; [split|].
  - intros [ch Hch].
    destruct (Forall_Exists_dec (validDigit base) (validDigit_dec base)
                                (normalized str)) as [Hall|Hex]; [|assumption].
    destruct (Hgood Hall) as [ds [_ Hp]]. congruence.
  - intros Hex. destruct (Hbad Hex) as [ch [_ [_ Hp]]]. eauto.
  - intros Hall. destruct (Hgood Hall) as [ds [Hds Hp]].
    exists ds. split; [assumption|]. rewrite Hp. simpl.
    split; [reflexivity|].
    apply positional_nonneg; [lia|].
    clear -Hds. induction Hds as [|ch v chars ds [Hv _] _ IH]; constructor;
      eauto using digitValue_nonneg.
Qed.

(** C4.  The parser does not reject every character that is neither a digit
    nor a letter: the underscore, whose code lies between ['Z'] and ['a'],
    is read as the digit 8 in base 10, so [parseBigIntInBase("_", 10)]
    returns 8 although the string has an invalid digit. *)
Theorem parseBigIntInBase_accepts_underscore :
  Exists (fun ch => ~ validDigit 10 ch) (normalized "_") /\
  parseBigIntInBase "_" 10 = Ok 8.
Proof.
  split; [|reflexivity].
  apply Exists_cons_hd. intros [v [Hv _]]. vm_compute in Hv. discriminate.
Qed.

(** C10.  The parser applied to the empty string, or to a string of white
    space only, returns 0, whatever the base. *)
Theorem parseBigIntInBase_blank (str : string) (base : Z) :
  forallb isWhiteSpace (list_ascii_of_string str) = true ->
  parseBigIntInBase str base = Ok 0.
Proof.
  intros H. unfold parseBigIntInBase. fold (normalized str).
  rewrite (normalized_blank str H). reflexivity.
Qed.

Lemma parseBigIntInBase_blank_witness :
  parseBigIntInBase "" 2 = Ok 0 /\ parseBigIntInBase "   " 36 = Ok 0.
Proof.
  split; apply parseBigIntInBase_blank; reflexivity.
Defined.

(** ** Rationals *)

Lemma bigIntAbs_abs a : bigIntAbs a = Z.abs a.
Proof. unfold bigIntAbs. destruct (Z.ltb_spec a 0); lia. Qed.

(** The loop of [bigIntGcd] ends within its fuel and computes the gcd. *)
Lemma gcdLoop_enough fuel a b :
  0 <= a -> 0 <= b -> (Z.to_nat b < fuel)%nat -> gcdLoop fuel a b = Z.gcd a b.
Proof.
  revert a b. induction fuel as [|fuel IH]; intros a b Ha Hb Hf; [lia|].
  cbn [gcdLoop]. destruct (Z.eqb_spec b 0) as [->|Hnz].
  - rewrite Z.gcd_0_r. lia.
  - rewrite Z.rem_mod_nonneg by lia.
    pose proof (Z.mod_pos_bound a b ltac:(lia)) as Hm.
    rewrite IH by lia.
    rewrite Z.gcd_comm, Z.gcd_mod by assumption. apply Z.gcd_comm.
Qed.

Lemma bigIntGcd_gcd a b : bigIntGcd a b = Z.gcd a b.
Proof.
  unfold bigIntGcd. rewrite !bigIntAbs_abs.
  rewrite gcdLoop_enough by lia.
  now rewrite Z.gcd_abs_l, Z.gcd_abs_r.
Qed.

(** More fuel does not change the result of the loop. *)
Lemma gcdLoop_stable fuel fuel' a b :
  0 <= a -> 0 <= b -> (Z.to_nat b < fuel)%nat -> (fuel <= fuel')%nat ->
  gcdLoop fuel' a b = gcdLoop fuel a b.
Proof.
  intros. rewrite !gcdLoop_enough by lia. reflexivity.
Qed.

Lemma new_positive n0 d0 :
  0 < d0 ->
  exists a b g, 0 < g /\ n0 = a * g /\ d0 = b * g /\ 0 < b /\ Z.gcd a b = 1 /\
                Rational.new n0 d0 = Ok (Rational.mk a b).
Proof.
  intros Hd. unfold Rational.new.
  destruct (Z.eqb_spec d0 0) as [->|_]; [lia|].
  destruct (Z.ltb_spec d0 0) as [?|_]; [lia|].
  rewrite bigIntGcd_gcd.
  pose proof (Z.gcd_nonneg n0 d0) as Hg0.
  assert (Hg : 0 < Z.gcd n0 d0).
  { destruct (Z.eq_dec (Z.gcd n0 d0) 0) as [E|E]; [|lia].
    apply Z.gcd_eq_0_r in E. lia. }
  destruct (Z.gcd_divide_l n0 d0) as [a Ha].
  destruct (Z.gcd_divide_r n0 d0) as [b Hb].
  pose proof (Z.gcd_mul_mono_r_nonneg a b (Z.gcd n0 d0) Hg0) as E.
  rewrite <- Ha, <- Hb in E.
  remember (Z.gcd n0 d0) as g eqn:Heqg. clear Heqg.
  exists a, b, g.
  assert (Hbpos : 0 < b) by nia.
  assert (Hab : Z.gcd a b = 1).
  { pose proof (Z.gcd_nonneg a b). nia. }
  repeat split; try assumption.
  subst n0 d0. rewrite !Z.quot_mul by lia. reflexivity.
Qed.

(** What the constructor does: it fails exactly on a zero denominator, and
    otherwise builds the canonical form of [n0 / d0]. *)
Lemma new_spec n0 d0 :
  (d0 = 0 /\ Rational.new n0 d0 = Err ZeroDenominator) \/
  (d0 <> 0 /\ exists r, Rational.new n0 d0 = Ok r /\ canonical r /\
                        Rational.n r * d0 = n0 * Rational.d r).
Proof.
  destruct (Z.eq_dec d0 0) as [->|Hnz]; [left; split; reflexivity|].
  right. split; [assumption|].
  destruct (Z.ltb_spec d0 0) as [Hneg|Hpos].
  - destruct (new_positive (- n0) (- d0) ltac:(lia))
      as [a [b [g [Hg [Ha [Hb [Hbp [Hab Hnew]]]]]]]].
    exists (Rational.mk a b). split; [|split].
    + unfold Rational.new in *.
      destruct (Z.eqb_spec d0 0); [lia|].
      destruct (Z.eqb_spec (- d0) 0); [lia|].
      destruct (Z.ltb_spec d0 0); [|lia].
      destruct (Z.ltb_spec (- d0) 0); [lia|]. exact Hnew.
    + split; simpl; [assumption|]. now rewrite Z.gcd_abs_l.
    + simpl. nia.
  - destruct (new_positive n0 d0 ltac:(lia))
      as [a [b [g [Hg [Ha [Hb [Hbp [Hab Hnew]]]]]]]].
    exists (Rational.mk a b). split; [assumption|]. split.
    + split; simpl; [assumption|]. now rewrite Z.gcd_abs_l.
    + simpl. nia.
Qed.

Lemma new_inv n0 d0 r :
  Rational.new n0 d0 = Ok r ->
  d0 <> 0 /\ canonical r /\ Rational.n r * d0 = n0 * Rational.d r.
Proof.
  intros H. destruct (new_spec n0 d0) as [[_ E]|[Hnz [r' [E [Hc Hv]]]]];
    [congruence|].
  rewrite E in H. injection H as <-. auto.
Qed.

Lemma new_ok n0 d0 :
  d0 <> 0 ->
  exists r, Rational.new n0 d0 = Ok r /\ canonical r /\
            Rational.n r * d0 = n0 * Rational.d r.
Proof.
  intros Hnz. destruct (new_spec n0 d0) as [[E _]|[_ H]]; [contradiction|exact H].
Qed.

Lemma new_err n0 d0 e :
  Rational.new n0 d0 = Err e -> e = ZeroDenominator /\ d0 = 0.
Proof.
  intros H. destruct (new_spec n0 d0) as [[E1 E2]|[_ [r [E _]]]]; [|congruence].
  rewrite E2 in H. injection H as <-. auto.
Qed.

Lemma new_int z : Rational.new z 1 = Ok (Rational.mk z 1).
Proof.
  unfold Rational.new. simpl. rewrite bigIntGcd_gcd, Z.gcd_1_r.
  now rewrite Z.quot_1_r.
Qed.

(** *** The rational number of a [Rational] object *)

Local Open Scope Qc_scope.

Lemma Zc_add a b : Zc (a + b) = Zc a + Zc b.
Proof.
  unfold Zc. qc_to_q. now rewrite inject_Z_plus.
Qed.

Lemma Zc_mul a b : Zc (a * b) = Zc a * Zc b.
Proof.
  unfold Zc. qc_to_q. now rewrite inject_Z_mult.
Qed.

Lemma Zc_opp a : Zc (- a) = - Zc a.
Proof.
  unfold Zc. qc_to_q. now rewrite inject_Z_opp.
Qed.

Lemma Zc_sub a b : Zc (a - b) = Zc a - Zc b.
Proof.
  unfold Z.sub, Qcminus. now rewrite Zc_add, Zc_opp.
Qed.

Lemma Zc_inj a b : Zc a = Zc b -> a = b.
Proof.
  unfold Zc. intros H. apply Q2Qc_eq_iff in H. now apply inject_Z_injective.
Qed.

Lemma Zc_0 : Zc 0 = 0.
Proof. reflexivity. Qed.

Lemma Zc_1 : Zc 1 = 1.
Proof. reflexivity. Qed.

Lemma Zc_nonzero a : a <> 0%Z -> Zc a <> 0.
Proof. intros H E. apply H. apply Zc_inj. now rewrite E. Qed.

Lemma toQc_frac r :
  (0 < Rational.d r)%Z -> toQc r = Zc (Rational.n r) / Zc (Rational.d r).
Proof.
  intros Hd. unfold toQc, Zc. qc_to_q. rewrite Qmake_Qdiv.
  rewrite Z2Pos.id by assumption. reflexivity.
Qed.

Lemma toQc_int z : toQc (Rational.mk z 1) = Zc z.
Proof.
  rewrite toQc_frac by (simpl; lia). simpl. rewrite Zc_1. field. discriminate.
Qed.

(** The value of a constructed object. *)
Lemma toQc_new n0 d0 r :
  Rational.new n0 d0 = Ok r -> toQc r = Zc n0 / Zc d0.
Proof.
  intros H. apply new_inv in H as [Hnz [[Hd _] Hv]].
  rewrite toQc_frac by assumption.
  assert (E : Zc (Rational.n r) * Zc d0 = Zc n0 * Zc (Rational.d r))
    by now rewrite <- !Zc_mul, Hv.
  assert (Zc d0 <> 0) by now apply Zc_nonzero.
  assert (Zc (Rational.d r) <> 0) by (apply Zc_nonzero; lia).
  assert (En0 : Zc n0 = Zc (Rational.n r) * Zc d0 / Zc (Rational.d r))
    by (rewrite E; field; assumption).
  rewrite En0. field. split; assumption.
Qed.

Lemma toQc_zero r : (0 < Rational.d r)%Z -> (toQc r = 0 <-> Rational.n r = 0%Z).
Proof.
  intros Hd. rewrite toQc_frac by assumption.
  assert (Zc (Rational.d r) <> 0) by (apply Zc_nonzero; lia).
  split.
  - intros E. apply Zc_inj. rewrite Zc_0.
    transitivity (Zc (Rational.n r) / Zc (Rational.d r) * Zc (Rational.d r));
      [field; assumption|]. rewrite E. ring.
  - intros ->. rewrite Zc_0. field. assumption.
Qed.

(** A rational number has one canonical form. *)
Lemma canonical_toQc_inj a b :
  canonical a -> canonical b -> toQc a = toQc b -> a = b.
Proof.
  intros [Hda Hga] [Hdb Hgb] E. unfold toQc in E.
  apply (f_equal this) in E. unfold Q2Qc in E. cbn [this] in E.
  rewrite Z.gcd_abs_l in Hga, Hgb.
  rewrite !Qred_identity in E
    by (simpl; rewrite Z2Pos.id by assumption; assumption).
  destruct a as [na da], b as [nb db]. simpl in *.
  injection E as En Ed. subst nb. f_equal.
  apply (f_equal Z.pos) in Ed. now rewrite !Z2Pos.id in Ed by assumption.
Qed.

Lemma canonical_int z : canonical (Rational.mk z 1).
Proof.
  split; simpl; [lia|]. apply Z.gcd_1_r.
Qed.

Lemma toQc_integer r z : canonical r -> toQc r = Zc z -> r = Rational.mk z 1.
Proof.
  intros Hc E. apply canonical_toQc_inj; [assumption|apply canonical_int|].
  now rewrite toQc_int.
Qed.

(** The operations on objects with positive denominators never throw
    (division: unless the divisor is zero) and compute the operation on the
    rational numbers. *)
Lemma add_ok a b :
  (0 < Rational.d a)%Z -> (0 < Rational.d b)%Z ->
  exists r, Rational.add a b = Ok r /\ canonical r /\ toQc r = toQc a + toQc b.
Proof.
  intros Ha Hb. unfold Rational.add.
  destruct (new_ok (Rational.n a * Rational.d b + Rational.n b * Rational.d a)
                   (Rational.d a * Rational.d b) ltac:(nia)) as [r [E [Hc _]]].
  exists r. split; [assumption|]. split; [assumption|].
  rewrite (toQc_new _ _ _ E), !toQc_frac by assumption.
  rewrite Zc_add, !Zc_mul. field.
  split; apply Zc_nonzero; lia.
Qed.

Lemma sub_ok a b :
  (0 < Rational.d a)%Z -> (0 < Rational.d b)%Z ->
  exists r, Rational.sub a b = Ok r /\ canonical r /\ toQc r = toQc a - toQc b.
Proof.
  intros Ha Hb. unfold Rational.sub.
  destruct (new_ok (Rational.n a * Rational.d b - Rational.n b * Rational.d a)
                   (Rational.d a * Rational.d b) ltac:(nia)) as [r [E [Hc _]]].
  exists r. split; [assumption|]. split; [assumption|].
  rewrite (toQc_new _ _ _ E), !toQc_frac by assumption.
  rewrite Zc_sub, !Zc_mul. field.
  split; apply Zc_nonzero; lia.
Qed.

Lemma mul_ok a b :
  (0 < Rational.d a)%Z -> (0 < Rational.d b)%Z ->
  exists r, Rational.mul a b = Ok r /\ canonical r /\ toQc r = toQc a * toQc b.
Proof.
  intros Ha Hb. unfold Rational.mul.
  destruct (new_ok (Rational.n a * Rational.n b)
                   (Rational.d a * Rational.d b) ltac:(nia)) as [r [E [Hc _]]].
  exists r. split; [assumption|]. split; [assumption|].
  rewrite (toQc_new _ _ _ E), !toQc_frac by assumption.
  rewrite !Zc_mul. field.
  split; apply Zc_nonzero; lia.
Qed.

Lemma div_ok a b :
  (0 < Rational.d a)%Z -> (0 < Rational.d b)%Z -> Rational.n b <> 0%Z ->
  exists r, Rational.div a b = Ok r /\ canonical r /\ toQc r = toQc a / toQc b.
Proof.
  intros Ha Hb Hn. unfold Rational.div.
  destruct (Z.eqb_spec (Rational.n b) 0) as [?|_]; [contradiction|].
  destruct (new_ok (Rational.n a * Rational.d b)
                   (Rational.d a * Rational.n b) ltac:(nia)) as [r [E [Hc _]]].
  exists r. split; [assumption|]. split; [assumption|].
  rewrite (toQc_new _ _ _ E), !toQc_frac by assumption.
  rewrite !Zc_mul. field.
  repeat split; apply Zc_nonzero; lia.
Qed.

(** Division throws "Division by zero" exactly on a divisor whose numerator
    is zero, whatever the operands. *)
Lemma div_DivisionByZero a b :
  Rational.div a b = Err DivisionByZero <-> Rational.n b = 0%Z.
Proof.
  unfold Rational.div. destruct (Z.eqb_spec (Rational.n b) 0) as [E|E].
  - tauto.
  - split; [|contradiction]. intros H. apply new_err in H as [H _]. discriminate.
Qed.

Lemma produced_is_canonical r : produced r -> canonical r.
Proof.
  intros H. destruct H as [? ? ? E|? ? E|? ? ? _ _ E|? ? ? _ _ E|? ? ? _ _ E|? ? ? _ _ E].
  - now apply new_inv in E.
  - now apply new_inv in E.
  - now apply new_inv in E.
  - now apply new_inv in E.
  - now apply new_inv in E.
  - unfold Rational.div in E. destruct (Rational.n b =? 0)%Z; [discriminate|].
    now apply new_inv in E.
Qed.

(** C6.  Every [Rational] produced by the constructor or by [add], [sub],
    [mul] or [div] is in canonical form: its denominator is positive and
    coprime with its numerator; and such an object stands for an integer
    exactly when its denominator is 1. *)
Theorem Rational_canonical (r : Rational.t) :
  produced r ->
  (0 < Rational.d r)%Z /\
  Z.gcd (Z.abs (Rational.n r)) (Rational.d r) = 1%Z /\
  (Rational.d r = 1%Z <-> exists z, toQc r = Zc z).
Proof.
  intros H. apply produced_is_canonical in H. destruct H as [Hd Hg].
  split; [assumption|]. split; [assumption|]. split.
  - intros E. exists (Rational.n r). destruct r as [n0 d0]. simpl in *.
    subst d0. apply toQc_int.
  - intros [z E]. apply toQc_integer in E; [|now split]. now subst r.
Qed.

Lemma Rational_canonical_witness :
  (0 < 3)%Z /\ Z.gcd (Z.abs (-2)) 3 = 1%Z /\
  (3%Z = 1%Z <-> exists z, toQc (Rational.mk (-2) 3) = Zc z).
Proof.
  apply (Rational_canonical (Rational.mk (-2) 3)).
  apply (produced_div (Rational.mk 1 3) (Rational.mk (-1) 2)).
  - apply (produced_new 2 6). reflexivity.
  - apply (produced_sub (Rational.mk 1 2) (Rational.mk 1 1)).
    + apply (produced_new (-4) (-8)). reflexivity.
    + apply (produced_fromBigInt 1). reflexivity.
    + reflexivity.
  - reflexivity.
Defined.

Local Close Scope Qc_scope.

(** ** Interpolation *)

Local Open Scope Qc_scope.

Lemma enumFrom_cons {A : Type} j (p : A) ps :
  enumFrom j (p :: ps) = (j, p) :: enumFrom (S j) ps.
Proof. reflexivity. Qed.

Lemma In_enumFrom {A : Type} (ps : list A) j i p :
  In (i, p) (enumFrom j ps) <->
  (j <= i)%nat /\ nth_error ps (i - j) = Some p.
Proof.
  revert j. induction ps as [|q ps IH]; intros j.
  - simpl. split; [tauto|]. intros [_ H]. now destruct (i - j)%nat.
  - rewrite enumFrom_cons. simpl. rewrite IH. split.
    + intros [[= <- <-]|[Hle Hn]].
      * split; [lia|]. now rewrite Nat.sub_diag.
      * split; [lia|]. replace (i - j)%nat with (S (i - S j)) by lia. exact Hn.
    + intros [Hle Hn]. destruct (Nat.eq_dec i j) as [->|Hne].
      * left. rewrite Nat.sub_diag in Hn. simpl in Hn. congruence.
      * right. split; [lia|].
        replace (i - j)%nat with (S (i - S j)) in Hn by lia. exact Hn.
Qed.

Lemma In_enumerate {A : Type} (ps : list A) i p :
  In (i, p) (enumerate ps) <-> nth_error ps i = Some p.
Proof.
  unfold enumerate. rewrite In_enumFrom, Nat.sub_0_r. split; [tauto|].
  split; [lia|assumption].
Qed.

Lemma In_skip {A : Type} i (l : list (nat * A)) jp :
  In jp (skip i l) <-> In jp l /\ fst jp <> i.
Proof.
  unfold skip. rewrite filter_In, negb_true_iff, Nat.eqb_neq. tauto.
Qed.

Lemma prodQc_cons z l : prodQc (z :: l) = z * prodQc l.
Proof. reflexivity. Qed.

Lemma sumQc_cons z l : sumQc (z :: l) = z + sumQc l.
Proof. reflexivity. Qed.

Lemma prodQc_zero l : In 0 l -> prodQc l = 0.
Proof.
  induction l as [|z l IH]; simpl; [tauto|].
  intros [->|H]; [ring|]. rewrite IH by assumption. ring.
Qed.

Lemma prodQc_nonzero l : (forall z, In z l -> z <> 0) -> prodQc l <> 0.
Proof.
  induction l as [|z l IH]; simpl; intros H.
  - discriminate.
  - intros E. apply Qcmult_integral in E. destruct E as [E|E].
    + now apply (H z); [left|].
    + apply IH; [|assumption]. intros z' Hz'. apply H. now right.
Qed.

Lemma prodQc_quot {A : Type} (a b : A -> Qc) l :
  (forall e, In e l -> b e <> 0) ->
  prodQc (map (fun e => a e / b e) l) = prodQc (map a l) / prodQc (map b l).
Proof.
  induction l as [|e l IH]; intros H; simpl.
  - field. discriminate.
  - rewrite IH by (intros; apply H; now right).
    assert (b e <> 0) by (apply H; now left).
    assert (prodQc (map b l) <> 0).
    { apply prodQc_nonzero. intros z Hz. apply in_map_iff in Hz.
      destruct Hz as [e' [<- He']]. apply H. now right. }
    field. split; assumption.
Qed.

(** The inner loop never throws; it multiplies [num] and [den] by the
    factors of the positions other than [i]. *)
Lemma basisLoop_ok ps j i x0 xi num den :
  canonical num -> canonical den ->
  exists num' den',
    basisLoop ps j i x0 xi num den = Ok (num', den') /\
    canonical num' /\ canonical den' /\
    toQc num' = toQc num
                * prodQc (map (fun jp => Zc x0 - Zc (Point.x (snd jp)))
                              (skip i (enumFrom j ps))) /\
    toQc den' = toQc den
                * prodQc (map (fun jp => Zc xi - Zc (Point.x (snd jp)))
                              (skip i (enumFrom j ps))).
Proof.
  revert j num den. induction ps as [|pj ps IH]; intros j num den Hn Hd.
  - exists num, den. simpl. repeat split; try apply Hn; try apply Hd; ring.
  - cbn [basisLoop]. rewrite enumFrom_cons. unfold skip. cbn [filter fst].
    fold (skip i (enumFrom (S j) ps)).
    destruct (Nat.eqb j i) eqn:Eji; cbn [negb].
    + apply IH; assumption.
    + rewrite !new_int. cbn [bind].
      destruct (mul_ok num (Rational.mk (x0 - Point.x pj) 1))
        as [num1 [E1 [Hc1 Hv1]]]; [apply Hn|simpl; lia|].
      destruct (mul_ok den (Rational.mk (xi - Point.x pj) 1))
        as [den1 [E2 [Hc2 Hv2]]]; [apply Hd|simpl; lia|].
      rewrite E1. cbn [bind]. rewrite E2. cbn [bind].
      destruct (IH (S j) num1 den1 Hc1 Hc2)
        as [num' [den' [E [Hcn [Hcd [Hvn Hvd]]]]]].
      exists num', den'. split; [assumption|]. split; [assumption|].
      split; [assumption|].
      rewrite Hvn, Hvd, Hv1, Hv2, !toQc_int, !Zc_sub. cbn [map snd].
      rewrite !prodQc_cons. split; ring.
Qed.

Lemma aloneAt_dec points i xi :
  {aloneAt points i xi} +
  {exists jp, In jp (skip i (enumerate points)) /\ Point.x (snd jp) = xi}.
Proof.
  unfold aloneAt. induction (skip i (enumerate points)) as [|jp l IH].
  - left. intros jp [].
  - destruct (Z.eq_dec (Point.x (snd jp)) xi) as [E|E].
    + right. exists jp. split; [now left|assumption].
    + destruct IH as [IH|IH].
      * left. intros jp' [<-|H]; auto.
      * right. destruct IH as [jp' [H1 H2]]. exists jp'. split; [now right|assumption].
Qed.

Lemma sumLoop_cons points pi ps i x0 sum :
  sumLoop points (pi :: ps) i x0 sum =
  (term <- termOf points i pi x0 ;;
   sum' <- Rational.add sum term ;;
   sumLoop points ps (S i) x0 sum').
Proof.
  cbn [sumLoop]. unfold termOf.
  destruct (Rational.new 1 1) as [num0|]; cbn [bind]; [|reflexivity].
  destruct (basisLoop points 0 i x0 (Point.x pi) num0 num0) as [[num den]|];
    cbn [bind]; [|reflexivity].
  destruct (Rational.div num den); cbn [bind]; [|reflexivity].
  destruct (Rational.fromBigInt (Point.y pi)); cbn [bind]; [|reflexivity].
  destruct (Rational.mul a0 a); reflexivity.
Qed.

Lemma termOf_ok points i pi x0 :
  aloneAt points i (Point.x pi) ->
  exists term, termOf points i pi x0 = Ok term /\ canonical term /\
               toQc term = Zc (Point.y pi) * basisQc points i (Point.x pi) (Zc x0).
Proof.
  intros Halone. unfold termOf. rewrite new_int. cbn [bind].
  destruct (basisLoop_ok points 0 i x0 (Point.x pi) (Rational.mk 1 1) (Rational.mk 1 1)
              (canonical_int 1) (canonical_int 1))
    as [num [den [E [Hcn [Hcd [Hvn Hvd]]]]]].
  rewrite E. cbn [bind]. fold (enumerate points) in Hvn, Hvd.
  rewrite toQc_int, Zc_1 in Hvn, Hvd.
  assert (Hnz : forall jp, In jp (skip i (enumerate points)) ->
                           Zc (Point.x pi) - Zc (Point.x (snd jp)) <> 0).
  { intros jp Hjp. rewrite <- Zc_sub. apply Zc_nonzero.
    specialize (Halone jp Hjp). lia. }
  assert (Hden : toQc den <> 0).
  { rewrite Hvd. intros E0. apply Qcmult_integral in E0.
    destruct E0 as [E0|E0]; [discriminate|]. revert E0. apply prodQc_nonzero.
    intros z Hz. apply in_map_iff in Hz. destruct Hz as [jp [<- Hjp]]. now apply Hnz. }
  destruct (div_ok num den) as [li [El [Hcl Hvl]]];
    [apply Hcn|apply Hcd| |].
  { intros E0. apply Hden. apply toQc_zero; [apply Hcd|assumption]. }
  rewrite El. cbn [bind]. unfold Rational.fromBigInt. rewrite new_int. cbn [bind].
  destruct (mul_ok (Rational.mk (Point.y pi) 1) li) as [t [Et [Hct Hvt]]];
    [simpl; lia|apply Hcl|].
  exists t. split; [assumption|]. split; [assumption|].
  rewrite Hvt, toQc_int, Hvl, Hvn, Hvd. unfold basisQc.
  rewrite prodQc_quot by assumption. f_equal. 
  rewrite !Qcmult_1_l. reflexivity.
Qed.

Lemma termOf_dup points i pi x0 :
  (exists jp, In jp (skip i (enumerate points)) /\ Point.x (snd jp) = Point.x pi) ->
  termOf points i pi x0 = Err DivisionByZero.
Proof.
  intros [jp [Hjp Hx]]. unfold termOf. rewrite new_int. cbn [bind].
  destruct (basisLoop_ok points 0 i x0 (Point.x pi) (Rational.mk 1 1) (Rational.mk 1 1)
              (canonical_int 1) (canonical_int 1))
    as [num [den [E [Hcn [Hcd [Hvn Hvd]]]]]].
  rewrite E. cbn [bind]. fold (enumerate points) in Hvd.
  assert (Hz : toQc den = 0).
  { rewrite Hvd. rewrite prodQc_zero; [ring|].
    apply in_map_iff. exists jp. split; [|assumption]. rewrite Hx. ring. }
  apply toQc_zero in Hz; [|apply Hcd].
  rewrite (proj2 (div_DivisionByZero num den) Hz). reflexivity.
Qed.

(** The outer loop over positions without a duplicate abscissa. *)
Lemma sumLoop_ok points ps i x0 sum :
  canonical sum ->
  (forall ip, In ip (enumFrom i ps) -> aloneAt points (fst ip) (Point.x (snd ip))) ->
  exists sum',
    sumLoop points ps i x0 sum = Ok sum' /\ canonical sum' /\
    toQc sum' = toQc sum
                + sumQc (map (fun ip => Zc (Point.y (snd ip))
                                        * basisQc points (fst ip) (Point.x (snd ip)) (Zc x0))
                             (enumFrom i ps)).
Proof.
  revert i sum. induction ps as [|pi ps IH]; intros i sum Hc Halone.
  - exists sum. simpl. repeat split; try apply Hc. ring.
  - rewrite sumLoop_cons.
    destruct (termOf_ok points i pi x0) as [t [Et [Hct Hvt]]].
    { apply (Halone (i, pi)). rewrite enumFrom_cons. now left. }
    rewrite Et. cbn [bind].
    destruct (add_ok sum t) as [s1 [Es [Hcs Hvs]]]; [apply Hc|apply Hct|].
    rewrite Es. cbn [bind].
    destruct (IH (S i) s1 Hcs) as [s' [E' [Hc' Hv']]].
    { intros ip Hip. apply Halone. rewrite enumFrom_cons. now right. }
    exists s'. split; [assumption|]. split; [assumption|].
    rewrite Hv', Hvs, Hvt, enumFrom_cons. cbn [map fst snd].
    rewrite sumQc_cons. ring.
Qed.

(** The outer loop throws "Division by zero" at the first position whose
    abscissa occurs elsewhere. *)
Lemma sumLoop_dup points ps i x0 sum :
  canonical sum ->
  (exists ip, In ip (enumFrom i ps) /\ ~ aloneAt points (fst ip) (Point.x (snd ip))) ->
  sumLoop points ps i x0 sum = Err DivisionByZero.
Proof.
  revert i sum. induction ps as [|pi ps IH]; intros i sum Hc [ip [Hip Hdup]].
  - destruct Hip.
  - rewrite sumLoop_cons.
    destruct (aloneAt_dec points i (Point.x pi)) as [Ha|Hd].
    + destruct (termOf_ok points i pi x0 Ha) as [t [Et [Hct Hvt]]].
      rewrite Et. cbn [bind].
      destruct (add_ok sum t) as [s1 [Es [Hcs Hvs]]]; [apply Hc|apply Hct|].
      rewrite Es. cbn [bind]. apply IH; [assumption|].
      exists ip. split; [|assumption].
      rewrite enumFrom_cons in Hip. destruct Hip as [<-|Hip]; [|assumption].
      contradiction.
    + rewrite (termOf_dup points i pi x0 Hd). reflexivity.
Qed.

Lemma NoDup_aloneAt points :
  NoDup (map Point.x points) ->
  forall ip, In ip (enumerate points) -> aloneAt points (fst ip) (Point.x (snd ip)).
Proof.
  intros Hnd [i pi] Hip [j pj] Hjp E. cbn [fst snd] in *.
  apply In_skip in Hjp as [Hjp Hne]. cbn [fst] in Hne.
  apply In_enumerate in Hip, Hjp.
  apply Hne.
  apply (proj1 (NoDup_nth_error (map Point.x points)) Hnd).
  - rewrite length_map. apply nth_error_Some. congruence.
  - rewrite !nth_error_map, Hip, Hjp. simpl. congruence.
Qed.

Lemma duplicateX_not_alone points :
  duplicateX points ->
  exists ip, In ip (enumerate points) /\ ~ aloneAt points (fst ip) (Point.x (snd ip)).
Proof.
  intros [i [j [pi [pj [Hne [Hi [Hj Hx]]]]]]].
  exists (i, pi). split; [now apply In_enumerate|].
  intros Ha. apply (Ha (j, pj)); [|now symmetry].
  apply In_skip. split; [now apply In_enumerate|]. cbn [fst]. congruence.
Qed.

(** The evaluator on pairwise distinct abscissas computes the Lagrange form. *)
Lemma lagrangeEvalAt_ok points x0 :
  NoDup (map Point.x points) ->
  exists r, lagrangeEvalAt points x0 = Ok r /\ canonical r /\
            toQc r = lagrangeQc points (Zc x0).
Proof.
  intros Hnd. unfold lagrangeEvalAt. rewrite new_int. cbn [bind].
  destruct (sumLoop_ok points points 0 x0 (Rational.mk 0 1) (canonical_int 0)
              (NoDup_aloneAt points Hnd)) as [r [E [Hc Hv]]].
  exists r. split; [assumption|]. split; [assumption|].
  rewrite Hv, toQc_int, Zc_0. unfold lagrangeQc, enumerate. ring.
Qed.

Lemma lagrangeEvalAt_duplicate points x0 :
  duplicateX points -> lagrangeEvalAt points x0 = Err DivisionByZero.
Proof.
  intros Hdup. unfold lagrangeEvalAt. rewrite new_int. cbn [bind].
  apply sumLoop_dup; [apply canonical_int|].
  now apply duplicateX_not_alone.
Qed.

(** C8.  [div] throws "Division by zero" exactly when the numerator of the
    divisor is zero; and the evaluator, given two points with the same
    abscissa, throws "Division by zero". *)
Theorem DivisionByZero_surfaced :
  (forall a b : Rational.t,
      Rational.div a b = Err DivisionByZero <-> Rational.n b = 0%Z) /\
  (forall (points : list Point.t) (x0 : Z),
      duplicateX points -> lagrangeEvalAt points x0 = Err DivisionByZero).
Proof.
  split; [exact div_DivisionByZero|exact lagrangeEvalAt_duplicate].
Qed.

Lemma DivisionByZero_surfaced_witness :
  Rational.div (Rational.mk 1 2) (Rational.mk 0 1) = Err DivisionByZero /\
  lagrangeEvalAt [Point.mk 1 6; Point.mk 2 15; Point.mk 1 7] 0 = Err DivisionByZero.
Proof.
  split.
  - apply (proj1 DivisionByZero_surfaced). reflexivity.
  - apply (proj2 DivisionByZero_surfaced).
    exists 0%nat, 2%nat, (Point.mk 1 6), (Point.mk 1 7).
    repeat split. discriminate.
Defined.

Local Close Scope Qc_scope.

(** *** Polynomials and the uniqueness of the interpolant *)

Local Open Scope Qc_scope.

Lemma peval_padd p q x : peval (padd p q) x = peval p x + peval q x.
Proof.
  revert q. induction p as [|a p IH]; intros q; simpl; [ring|].
  destruct q as [|b q]; simpl; [ring|]. rewrite IH. ring.
Qed.

Lemma length_padd p q : length (padd p q) = Nat.max (length p) (length q).
Proof.
  revert q. induction p as [|a p IH]; intros q; simpl; [reflexivity|].
  destruct q as [|b q]; simpl; [reflexivity|]. now rewrite IH.
Qed.

Lemma peval_pscale c p x : peval (pscale c p) x = c * peval p x.
Proof.
  induction p as [|a p IH]; simpl; [ring|]. fold (pscale c p). rewrite IH. ring.
Qed.

Lemma length_pscale c p : length (pscale c p) = length p.
Proof. apply length_map. Qed.

Lemma peval_pmulLin a p x : peval (pmulLin a p) x = (x - a) * peval p x.
Proof.
  unfold pmulLin. rewrite peval_padd, peval_pscale. simpl. ring.
Qed.

Lemma length_pmulLin a p : length (pmulLin a p) = S (length p).
Proof.
  unfold pmulLin. rewrite length_padd, length_pscale. cbn [length]. lia.
Qed.

(** The factor theorem. *)
Lemma peval_pdivLin a p x :
  peval p x = (x - a) * peval (pdivLin a p) x + peval p a.
Proof.
  induction p as [|c p IH]; [simpl; ring|].
  destruct p as [|c' p]; [simpl; ring|].
  change (pdivLin a (c :: c' :: p)) with (peval (c' :: p) a :: pdivLin a (c' :: p)).
  change (peval (c :: c' :: p) x) with (c + x * peval (c' :: p) x).
  change (peval (c :: c' :: p) a) with (c + a * peval (c' :: p) a).
  change (peval (peval (c' :: p) a :: pdivLin a (c' :: p)) x)
    with (peval (c' :: p) a + x * peval (pdivLin a (c' :: p)) x).
  rewrite IH at 1. ring.
Qed.

Lemma length_pdivLin a p : length (pdivLin a p) = pred (length p).
Proof.
  induction p as [|c p IH]; [reflexivity|].
  destruct p as [|c' p]; [reflexivity|].
  change (pdivLin a (c :: c' :: p)) with (peval (c' :: p) a :: pdivLin a (c' :: p)).
  cbn [length]. rewrite IH. reflexivity.
Qed.

(** A polynomial with at least as many distinct roots as coefficients
    vanishes everywhere. *)
Lemma roots_vanish roots :
  NoDup roots ->
  forall p, (length p <= length roots)%nat ->
            (forall a, In a roots -> peval p a = 0) ->
            forall x, peval p x = 0.
Proof.
  induction 1 as [|a roots Hnotin _ IH]; intros p Hlen Hroots x.
  - destruct p; [reflexivity|simpl in Hlen; lia].
  - rewrite (peval_pdivLin a p x), (Hroots a) by now left.
    rewrite IH; [ring| |].
    + rewrite length_pdivLin. simpl in Hlen. lia.
    + intros b Hb.
      assert (E : peval p b = 0) by (apply Hroots; now right).
      rewrite (peval_pdivLin a p b), (Hroots a) in E by now left.
      assert (E' : (b - a) * peval (pdivLin a p) b = 0) by (rewrite <- E; ring).
      apply Qcmult_integral in E'. destruct E' as [E'|E']; [|assumption].
      exfalso. apply Hnotin. replace a with b; [assumption|].
      transitivity (b - a + a); [|rewrite E']; ring.
Qed.

Lemma peval_basisPoly l xi x :
  peval (basisPoly l xi) x
  = prodQc (map (fun jp => (x - Zc (Point.x (snd jp))) / (Zc xi - Zc (Point.x (snd jp)))) l).
Proof.
  induction l as [|jp l IH]; [simpl; ring|].
  cbn [basisPoly map]. rewrite prodQc_cons, peval_pscale, peval_pmulLin, IH.
  unfold Qcdiv. ring.
Qed.

Lemma length_basisPoly l xi : length (basisPoly l xi) = S (length l).
Proof.
  induction l as [|jp l IH]; [reflexivity|].
  cbn [basisPoly]. rewrite length_pscale, length_pmulLin, IH. reflexivity.
Qed.

Lemma peval_lagrangePoly points x :
  peval (lagrangePoly points) x = lagrangeQc points x.
Proof.
  unfold lagrangePoly, lagrangeQc, basisQc.
  generalize (enumerate points) at 2 4. intros l.
  induction l as [|ip l IH]; [reflexivity|].
  cbn [fold_right map]. rewrite sumQc_cons, peval_padd, peval_pscale, IH.
  now rewrite peval_basisPoly.
Qed.

Lemma length_filter_lt {A : Type} (f : A -> bool) l e :
  In e l -> f e = false -> (length (filter f l) < length l)%nat.
Proof.
  induction l as [|a l IH]; [intros []|].
  intros [->|Hin] Hf; simpl.
  - rewrite Hf. pose proof (filter_length_le f l). lia.
  - specialize (IH Hin Hf). destruct (f a); simpl; lia.
Qed.

Lemma length_enumFrom {A : Type} j (l : list A) : length (enumFrom j l) = length l.
Proof.
  unfold enumFrom. rewrite length_combine, length_seq. apply Nat.min_id.
Qed.

Lemma length_lagrangePoly points :
  (length (lagrangePoly points) <= length points)%nat.
Proof.
  unfold lagrangePoly.
  assert (H : forall ip, In ip (enumerate points) ->
                         (length (skip (fst ip) (enumerate points)) < length points)%nat).
  { intros ip Hip. rewrite <- (length_enumFrom 0 points).
    apply (length_filter_lt _ _ ip Hip). now rewrite Nat.eqb_refl. }
  revert H. generalize (enumerate points) at 1 4. intros l.
  induction l as [|ip l IH]; intros H; [simpl; lia|].
  cbn [fold_right]. rewrite length_padd, length_pscale, length_basisPoly.
  pose proof (H ip (or_introl eq_refl)).
  assert (IH' := IH (fun ip0 Hin => H ip0 (or_intror Hin))).
  lia.
Qed.

Local Close Scope Qc_scope.


(** *** The Lagrange form interpolates, and is the only interpolant *)

Local Open Scope Qc_scope.

Lemma map_fst_enumFrom {A : Type} j (l : list A) :
  map fst (enumFrom j l) = seq j (length l).
Proof.
  revert j. induction l as [|a l IH]; intros j; [reflexivity|].
  rewrite enumFrom_cons. simpl. now rewrite IH.
Qed.

Lemma NoDup_enumerate {A : Type} (l : list A) : NoDup (enumerate l).
Proof.
  apply (NoDup_map_inv fst). unfold enumerate. rewrite map_fst_enumFrom.
  apply seq_NoDup.
Qed.

Lemma sumQc_single {A : Type} (g : A -> Qc) l e :
  NoDup l -> In e l -> (forall e', In e' l -> e' <> e -> g e' = 0) ->
  sumQc (map g l) = g e.
Proof.
  induction 1 as [|a l Hnotin Hnd IH]; intros Hin Hz; [destruct Hin|].
  cbn [map]. rewrite sumQc_cons. destruct Hin as [->|Hin].
  - assert (E : sumQc (map g l) = 0).
    { clear IH. induction l as [|b l IHl]; [reflexivity|].
      cbn [map]. rewrite sumQc_cons, IHl.
      - rewrite (Hz b); [ring|right; now left|].
        intros ->. apply Hnotin. now left.
      - intros Hin. apply Hnotin. now right.
      - now inversion Hnd.
      - intros e' He' Hne. apply Hz; [|assumption].
        destruct He' as [<-|He']; [now left|right; now right]. }
    rewrite E. ring.
  - rewrite IH; [|assumption|intros; apply Hz; [now right|assumption]].
    rewrite (Hz a); [ring|now left|]. intros ->. contradiction.
Qed.

Lemma prodQc_ones l : (forall z, In z l -> z = 1) -> prodQc l = 1.
Proof.
  induction l as [|z l IH]; intros H; [reflexivity|].
  rewrite prodQc_cons, (H z), IH by (try (now left); intros; apply H; now right).
  ring.
Qed.

Lemma basisQc_node_self points m xm :
  aloneAt points m xm -> basisQc points m xm (Zc xm) = 1.
Proof.
  intros Ha. unfold basisQc. apply prodQc_ones. intros z Hz.
  apply in_map_iff in Hz. destruct Hz as [jp [<- Hjp]].
  specialize (Ha jp Hjp). field. rewrite <- Zc_sub. apply Zc_nonzero. lia.
Qed.

Lemma basisQc_node_other points i xi m pm :
  In (m, pm) (skip i (enumerate points)) ->
  basisQc points i xi (Zc (Point.x pm)) = 0.
Proof.
  intros Hin. unfold basisQc. apply prodQc_zero. apply in_map_iff.
  exists (m, pm). split; [|assumption]. cbn [snd]. unfold Qcdiv. ring.
Qed.

Lemma lagrangeQc_node points m pm :
  NoDup (map Point.x points) -> nth_error points m = Some pm ->
  lagrangeQc points (Zc (Point.x pm)) = Zc (Point.y pm).
Proof.
  intros Hnd Hm. unfold lagrangeQc.
  assert (Hin : In (m, pm) (enumerate points)) by now apply In_enumerate.
  rewrite (sumQc_single _ _ (m, pm) (NoDup_enumerate points) Hin).
  - cbn [fst snd]. rewrite (basisQc_node_self points m (Point.x pm)); [ring|].
    apply (NoDup_aloneAt points Hnd (m, pm) Hin).
  - intros [i pi] Hi Hne. cbn [fst snd].
    rewrite (basisQc_node_other points i (Point.x pi) m pm); [ring|].
    apply In_skip. split; [assumption|]. cbn [fst]. intros ->.
    apply In_enumerate in Hi. apply Hne. congruence.
Qed.

Lemma lagrangePoly_interpolates points :
  NoDup (map Point.x points) -> interpolates (lagrangePoly points) points.
Proof.
  intros Hnd pt Hin. apply In_nth_error in Hin as [m Hm].
  rewrite peval_lagrangePoly. now apply (lagrangeQc_node points m).
Qed.

Lemma NoDup_map_Zc l : NoDup l -> NoDup (map Zc l).
Proof.
  induction 1 as [|a l Hnotin _ IH]; simpl; constructor; [|assumption].
  intros Hin. apply in_map_iff in Hin. destruct Hin as [b [E Hb]].
  apply Zc_inj in E. now subst b.
Qed.

(** Any polynomial of degree at most [k - 1] through [k] points with
    pairwise distinct abscissas takes the value of the Lagrange form
    everywhere. *)
Lemma interpolant_unique points p :
  NoDup (map Point.x points) ->
  (length p <= length points)%nat -> interpolates p points ->
  forall x, peval p x = lagrangeQc points x.
Proof.
  intros Hnd Hlen Hp x.
  pose (dif := padd p (pscale (- (1)) (lagrangePoly points))).
  assert (Hd : peval dif x = 0).
  { apply (roots_vanish (map Zc (map Point.x points))).
    - now apply NoDup_map_Zc.
    - unfold dif. rewrite length_padd, length_pscale, !length_map.
      pose proof (length_lagrangePoly points). lia.
    - intros a Ha. rewrite map_map in Ha. apply in_map_iff in Ha.
      destruct Ha as [pt [<- Hpt]]. unfold dif.
      rewrite peval_padd, peval_pscale, (Hp pt Hpt),
        (lagrangePoly_interpolates points Hnd pt Hpt). ring. }
  unfold dif in Hd. rewrite peval_padd, peval_pscale, peval_lagrangePoly in Hd.
  transitivity (peval p x + - (1) * lagrangeQc points x + lagrangeQc points x);
    [ring|]. rewrite Hd. ring.
Qed.

(** C3.  On points with pairwise distinct abscissas the evaluator returns,
    in canonical form, the value at [x0] of the Lagrange form; a polynomial
    of degree at most [k - 1] through the points exists, and every such
    polynomial takes that value at [x0]. *)
Theorem lagrangeEvalAt_exact (points : list Point.t) (x0 : Z) :
  NoDup (map Point.x points) ->
  exists r,
    lagrangeEvalAt points x0 = Ok r /\
    canonical r /\
    toQc r = lagrangeQc points (Zc x0) /\
    (exists p, (length p <= length points)%nat /\ interpolates p points) /\
    (forall p, (length p <= length points)%nat -> interpolates p points ->
               peval p (Zc x0) = toQc r).
Proof.
  intros Hnd. destruct (lagrangeEvalAt_ok points x0 Hnd) as [r [E [Hc Hv]]].
  exists r. split; [assumption|]. split; [assumption|]. split; [assumption|].
  split.
  - exists (lagrangePoly points). split.
    + apply length_lagrangePoly.
    + now apply lagrangePoly_interpolates.
  - intros p Hlen Hp. rewrite Hv. now apply interpolant_unique.
Qed.

Lemma lagrangeEvalAt_exact_witness :
  exists r,
    lagrangeEvalAt [Point.mk 1 6; Point.mk 2 15; Point.mk 4 999] 3 = Ok r /\
    canonical r /\
    toQc r = lagrangeQc [Point.mk 1 6; Point.mk 2 15; Point.mk 4 999] (Zc 3) /\
    (exists p, (length p <= 3)%nat /\
               interpolates p [Point.mk 1 6; Point.mk 2 15; Point.mk 4 999]) /\
    (forall p, (length p <= 3)%nat ->
               interpolates p [Point.mk 1 6; Point.mk 2 15; Point.mk 4 999] ->
               peval p (Zc 3) = toQc r).
Proof.
  apply (lagrangeEvalAt_exact [Point.mk 1 6; Point.mk 2 15; Point.mk 4 999] 3).
  repeat constructor; simpl; intuition discriminate.
Defined.

(** At the abscissa of one of its points, the evaluator returns the
    ordinate of that point, as an integer. *)
Lemma lagrangeEvalAt_node points pt :
  NoDup (map Point.x points) -> In pt points ->
  lagrangeEvalAt points (Point.x pt) = Ok (Rational.mk (Point.y pt) 1).
Proof.
  intros Hnd Hin. destruct (lagrangeEvalAt_ok points (Point.x pt) Hnd) as [r [E [Hc Hv]]].
  rewrite E. f_equal. apply toQc_integer; [assumption|].
  rewrite Hv. apply In_nth_error in Hin as [m Hm].
  now apply (lagrangeQc_node points m).
Qed.

Local Close Scope Qc_scope.

(** ** Subset combinator *)

(** *** The successor step of the generator *)

Lemma setNth_app {A : Type} (pre l : list A) i v :
  setNth (length pre + i) v (pre ++ l) = pre ++ setNth i v l.
Proof.
  induction pre as [|a pre IH]; [reflexivity|]. simpl. now rewrite IH.
Qed.

Lemma scanDown_app n k t :
  forall pre, k = (length pre + length t)%nat ->
  scanDown (pre ++ t) n k (length pre + length t)
  = match lastFree n t with
    | Some i => Some (length pre + i)%nat
    | None => scanDown (pre ++ t) n k (length pre)
    end.
Proof.
  induction t as [|x rest IH]; intros pre Hk.
  - simpl. now rewrite Nat.add_0_r.
  - specialize (IH (pre ++ [x])). rewrite <- app_assoc in IH. cbn [app] in IH.
    rewrite length_app in IH. cbn [length] in *.
    replace (length pre + S (length rest))%nat
      with (length pre + 1 + length rest)%nat by lia.
    rewrite IH by lia. cbn [lastFree length].
    destruct (lastFree n rest) as [i|].
    + f_equal. lia.
    + rewrite Nat.add_1_r. cbn [scanDown]. rewrite nth_middle.
      destruct (Z.eqb_spec (Z.of_nat x)
                           (Z.of_nat (length pre) + Z.of_nat n - Z.of_nat k));
        destruct (Nat.eqb_spec (x + S (length rest)) n); try lia.
      * reflexivity.
      * f_equal. lia.
Qed.

Lemma resetLoop_app rest :
  forall pre v,
    resetLoop (length rest) (S (length pre)) (pre ++ v :: rest)
    = pre ++ v :: seq (S v) (length rest).
Proof.
  induction rest as [|r rest IH]; intros pre v; [reflexivity|].
  cbn [length resetLoop]. rewrite Nat.sub_succ, Nat.sub_0_r, nth_middle.
  replace (S (length pre)) with (length pre + 1)%nat at 2 by lia.
  rewrite setNth_app. cbn [setNth].
  specialize (IH (pre ++ [v]) (S v)).
  rewrite length_app, <- app_assoc in IH. cbn [length app] in IH.
  rewrite Nat.add_1_r in IH. rewrite Nat.add_1_r.
  rewrite IH, <- app_assoc. reflexivity.
Qed.

Lemma lastFree_lt n t i : lastFree n t = Some i -> (i < length t)%nat.
Proof.
  revert i. induction t as [|x rest IH]; intros i; [discriminate|].
  cbn [lastFree length]. destruct (lastFree n rest) as [j|].
  - intros [= <-]. specialize (IH j eq_refl). lia.
  - destruct (Nat.eqb (x + S (length rest)) n); [discriminate|].
    intros [= <-]. lia.
Qed.

Lemma setNth_middle {A : Type} (pre : list A) v w rest :
  setNth (length pre) w (pre ++ v :: rest) = pre ++ w :: rest.
Proof.
  pose proof (setNth_app pre (v :: rest) 0 w) as H.
  now rewrite Nat.add_0_r in H.
Qed.

Lemma firstn_exact {A : Type} (pre l : list A) :
  firstn (length pre) (pre ++ l) = pre.
Proof.
  pose proof (firstn_app_2 0 pre l) as H.
  rewrite Nat.add_0_r in H. rewrite H. apply app_nil_r.
Qed.

Lemma resetLoop_at pre v rest :
  resetLoop (length (pre ++ v :: rest) - (length pre + 1)) (length pre + 1)
            (setNth (length pre) (nth (length pre) (pre ++ v :: rest) O + 1)%nat
                    (pre ++ v :: rest))
  = bump (pre ++ v :: rest) (length pre).
Proof.
  unfold bump. rewrite nth_middle, length_app. cbn [length].
  replace (length pre + S (length rest) - (length pre + 1))%nat
    with (length rest) by lia.
  replace (length pre + S (length rest) - length pre)%nat
    with (S (length rest)) by lia.
  rewrite setNth_middle, firstn_exact. cbn [seq].
  rewrite !Nat.add_1_r. apply resetLoop_app.
Qed.

Lemma advance_bump n idx :
  advance n (length idx) idx = option_map (bump idx) (lastFree n idx).
Proof.
  unfold advance.
  pose proof (scanDown_app n (length idx) idx [] eq_refl) as H.
  cbn [app length Nat.add] in H. rewrite H. clear H.
  destruct (lastFree n idx) as [i|] eqn:E; [|reflexivity].
  cbn [option_map]. f_equal. apply lastFree_lt in E.
  destruct (nth_split idx O E) as [pre [rest [Hidx Hlen]]].
  rewrite Hidx. subst i. apply resetLoop_at.
Qed.

Lemma successor_bump n idx :
  successor n idx = option_map (bump idx) (lastFree n idx).
Proof.
  induction idx as [|x rest IH]; [reflexivity|].
  cbn [successor lastFree]. rewrite IH.
  destruct (lastFree n rest) as [i|]; cbn [option_map].
  - reflexivity.
  - destruct (Nat.eqb (x + length (x :: rest)) n); [reflexivity|].
    cbn [option_map]. unfold bump. cbn [firstn app nth]. now rewrite Nat.sub_0_r.
Qed.

(** Lines 71-75 compute the successor. *)
Lemma advance_successor n idx : advance n (length idx) idx = successor n idx.
Proof. now rewrite advance_bump, successor_bump. Qed.

Lemma successor_length n t u : successor n t = Some u -> length u = length t.
Proof.
  revert u. induction t as [|x rest IH]; intros u; [discriminate|].
  cbn [successor]. destruct (successor n rest) as [rest'|].
  - intros [= <-]. simpl. now rewrite (IH rest').
  - destruct (Nat.eqb (x + length (x :: rest)) n); [discriminate|].
    intros [= <-]. cbn [length]. now rewrite length_seq.
Qed.

(** *** The subsets in lexicographic order *)

Lemma length_subsetsFrom cnt :
  forall lo k, length (subsetsFrom lo cnt k) = binomial cnt k.
Proof.
  induction cnt as [|c IH]; intros lo [|k']; try reflexivity.
  cbn [subsetsFrom binomial]. now rewrite length_app, length_map, !IH.
Qed.

Lemma binomial_short a :
  forall b, (a < b)%nat -> binomial a b = O.
Proof.
  induction a as [|a IHa]; intros [|b] Hab; try lia; [reflexivity|].
  cbn [binomial]. now rewrite !IHa by lia.
Qed.

(** [binomial n k] is [n! / (k! (n-k)!)]. *)
Lemma binomial_fact n :
  forall k, (k <= n)%nat -> (binomial n k * (fact k * fact (n - k)) = fact n)%nat.
Proof.
  induction n as [|n IH]; intros k Hk.
  - replace k with O by lia. reflexivity.
  - destruct k as [|k'].
    + cbn [binomial fact Nat.sub]. lia.
    + cbn [binomial]. rewrite Nat.sub_succ.
      pose proof (IH k' ltac:(lia)) as H1.
      pose proof (lt_O_fact n) as Hpos.
      destruct (Nat.eq_dec k' n) as [->|Hne].
      * rewrite Nat.sub_diag in *. cbn [fact] in H1 |- *.
        rewrite (binomial_short n (S n)) by lia. nia.
      * pose proof (IH (S k') ltac:(lia)) as H2.
        replace (n - k')%nat with (S (n - S k')) in * by lia.
        cbn [fact] in H1, H2 |- *.
        remember (fact k') as fk. remember (fact (n - S k')) as fr.
        remember (binomial n k') as b1. remember (binomial n (S k')) as b2.
        remember (fact n) as fn.
        assert (E1 : (b1 * (S k' * fk * (S (n - S k') * fr))
                      = S k' * (b1 * (fk * (S (n - S k') * fr))))%nat) by ring.
        assert (E2 : (b2 * (S k' * fk * (S (n - S k') * fr))
                      = S (n - S k') * (b2 * (S k' * fk * fr)))%nat) by ring.
        rewrite Nat.mul_add_distr_r, E1, E2, H1, H2.
        replace (S n) with (S k' + S (n - S k'))%nat at 1 by lia. ring.
Qed.

Lemma subsetsFrom_short cnt :
  forall lo k, (cnt < k)%nat -> subsetsFrom lo cnt k = [].
Proof.
  induction cnt as [|c IH]; intros lo [|k'] Hk; try lia; [reflexivity|].
  cbn [subsetsFrom]. now rewrite !IH by lia.
Qed.







(** *** The generator walks the subsets in order *)

Lemma successor_top k :
  forall s n, (s + k = n)%nat -> successor n (seq s k) = None.
Proof.
  induction k as [|k IH]; intros s n Hn; [reflexivity|].
  cbn [seq successor]. rewrite (IH (S s) n) by lia.
  cbn [length]. rewrite length_seq.
  destruct (Nat.eqb_spec (s + S k) n); [reflexivity|lia].
Qed.

Lemma chain_nonempty n l : chain n l -> l <> [].
Proof. destruct 1; discriminate. Qed.

Lemma chain_map_cons n a l : chain n l -> chain n (map (cons a) l).
Proof.
  induction 1 as [t|t u l Hs _ IH]; simpl; constructor; [|assumption].
  cbn [successor]. now rewrite Hs.
Qed.

Lemma chain_app n l1 l2 :
  chain n l1 -> chain n l2 ->
  successor n (last l1 []) = Some (hd [] l2) ->
  chain n (l1 ++ l2).
Proof.
  induction 1 as [t|t u l Hs Hc IH]; intros H2 Hlink.
  - destruct H2 as [v|v w l2 Hv H2]; simpl in *; constructor;
      try assumption; constructor; assumption.
  - change ((t :: u :: l) ++ l2) with (t :: (u :: l) ++ l2).
    cbn [app]. constructor; [assumption|]. apply IH; assumption.
Qed.

Lemma hd_map_cons a (l : list (list nat)) :
  l <> [] -> hd [] (map (cons a) l) = a :: hd [] l.
Proof. destruct l; [congruence|reflexivity]. Qed.

Lemma last_map_cons a (l : list (list nat)) :
  l <> [] -> last (map (cons a) l) [] = a :: last l [].
Proof.
  induction l as [|t l IH]; [congruence|]. intros _.
  destruct l as [|u l]; [reflexivity|].
  change (last (map (cons a) (t :: u :: l)) []) with (last (map (cons a) (u :: l)) []).
  change (last (t :: u :: l) []) with (last (u :: l) []).
  apply IH. discriminate.
Qed.

Lemma last_app_nonempty {A : Type} (l1 l2 : list A) d :
  l2 <> [] -> last (l1 ++ l2) d = last l2 d.
Proof.
  intros H. induction l1 as [|a l1 IH]; [reflexivity|].
  simpl. destruct (l1 ++ l2) eqn:E; [|assumption].
  apply app_eq_nil in E. tauto.
Qed.

Lemma hd_app_nonempty {A : Type} (l1 l2 : list A) d :
  l1 <> [] -> hd d (l1 ++ l2) = hd d l1.
Proof. destruct l1; [congruence|reflexivity]. Qed.

(** [subsetsFrom] lists the tuples from the first, [lo .. lo+k-1], to the
    last, each the successor of the one before. *)
Lemma subsetsFrom_chain cnt :
  forall lo k, (k <= cnt)%nat ->
    chain (lo + cnt) (subsetsFrom lo cnt k) /\
    hd [] (subsetsFrom lo cnt k) = seq lo k /\
    last (subsetsFrom lo cnt k) [] = seq (lo + cnt - k) k.
Proof.
  induction cnt as [|c IH]; intros lo k Hk.
  - replace k with O by lia. simpl. repeat split. constructor.
  - destruct k as [|k']; [simpl; repeat split; constructor|].
    cbn [subsetsFrom].
    destruct (IH (S lo) k' ltac:(lia)) as [HcA [HhA HlA]].
    replace (S lo + c)%nat with (lo + S c)%nat in * by lia.
    pose proof (chain_nonempty _ _ HcA) as HneA.
    assert (HneM : map (cons lo) (subsetsFrom (S lo) c k') <> []).
    { intros E. apply map_eq_nil in E. contradiction. }
    destruct (Nat.eq_dec k' c) as [->|Hne].
    + rewrite (subsetsFrom_short c (S lo) (S c)) by lia. rewrite app_nil_r.
      split; [now apply chain_map_cons|].
      rewrite hd_map_cons, last_map_cons, HhA, HlA by assumption.
      split; [reflexivity|].
      replace (lo + S c - c)%nat with (S lo) by lia.
      replace (lo + S c - S c)%nat with lo by lia. reflexivity.
    + destruct (IH (S lo) (S k') ltac:(lia)) as [HcB [HhB HlB]].
      replace (S lo + c)%nat with (lo + S c)%nat in * by lia.
      pose proof (chain_nonempty _ _ HcB) as HneB.
      split; [|split].
      * apply chain_app; [now apply chain_map_cons|assumption|].
        rewrite last_map_cons, HlA, HhB by assumption.
        cbn [successor]. rewrite successor_top by lia.
        cbn [length]. rewrite length_seq.
        destruct (Nat.eqb_spec (lo + S k') (lo + S c)); [lia|reflexivity].
      * rewrite hd_app_nonempty, hd_map_cons, HhA by assumption. reflexivity.
      * rewrite last_app_nonempty, HlB by assumption. reflexivity.
Qed.

Lemma chain_length n k l :
  chain n l -> length (hd [] l) = k -> forall t, In t l -> length t = k.
Proof.
  induction 1 as [t|t u l Hs _ IH]; intros Hk v Hv; simpl in *.
  - destruct Hv as [<-|[]]. assumption.
  - destruct Hv as [<-|Hv]; [assumption|]. apply IH; [|assumption].
    apply successor_length in Hs. lia.
Qed.

(** Draining the generator from the head of a chain that ends at the last
    tuple yields the rest of the chain. *)
Lemma genDrain_chain {A : Type} (arr : list A) k l :
  chain (length arr) l -> length (hd [] l) = k ->
  successor (length arr) (last l []) = None ->
  forall fuel, (length l <= fuel)%nat ->
    genDrain fuel arr k (GenYielded (hd [] l)) = Some (map (pick arr) (tl l)).
Proof.
  induction 1 as [t|t u l Hs Hc IH]; intros Hk Hlast fuel Hf.
  - destruct fuel as [|fuel]; [simpl in Hf; lia|].
    cbn [genDrain genNext hd tl map]. simpl in Hk, Hlast. subst k.
    now rewrite advance_successor, Hlast.
  - destruct fuel as [|fuel]; [simpl in Hf; lia|].
    cbn [genDrain genNext hd tl]. cbn [hd] in Hk. subst k.
    rewrite advance_successor, Hs.
    pose proof (successor_length _ _ _ Hs) as Hlen.
    change (GenYielded u) with (GenYielded (hd [] (u :: l))).
    rewrite IH; [reflexivity|exact Hlen|exact Hlast|simpl in *; lia].
Qed.


(** What [combinations(arr, k)] yields for [k <= arr.length]. *)
Lemma combinations_subsetsFrom {A : Type} (arr : list A) k m :
  (k <= length arr)%nat ->
  combinations (S (binomial (length arr) k) + m) arr k
  = Some (map (pick arr) (subsetsFrom 0 (length arr) k)).
Proof.
  intros Hk. unfold combinations.
  destruct k as [|k'].
  - destruct (length arr); reflexivity.
  - cbn [Nat.add genDrain genNext Nat.eqb].
    destruct (subsetsFrom_chain (length arr) 0 (S k') Hk) as [Hc [Hh Hl]].
    cbn [Nat.add] in Hc. rewrite <- Hh.
    rewrite (genDrain_chain arr (S k') _ Hc).
    + pose proof (chain_nonempty _ _ Hc) as Hne.
      destruct (subsetsFrom 0 (length arr) (S k')); [congruence|reflexivity].
    + rewrite Hh. apply length_seq.
    + rewrite Hl. apply successor_top. lia.
    + rewrite length_subsetsFrom. lia.
Qed.



(** ** Solver *)

(** *** One candidate subset *)

Lemma length_setNth {A : Type} i (v : A) l : length (setNth i v l) = length l.
Proof.
  revert i. induction l as [|a l IH]; intros [|i]; simpl; auto.
Qed.

Lemma nth_setNth_same {A : Type} i (v d : A) l :
  (i < length l)%nat -> nth i (setNth i v l) d = v.
Proof.
  revert i. induction l as [|a l IH]; intros [|i] H; simpl in *; try lia.
  - reflexivity.
  - apply IH. lia.
Qed.

Lemma nth_setNth_other {A : Type} i j (v d : A) l :
  i <> j -> nth j (setNth i v l) d = nth j l d.
Proof.
  revert i j. induction l as [|a l IH]; intros [|i] [|j] H; simpl; try reflexivity.
  - congruence.
  - apply IH. congruence.
Qed.

Lemma subsetOf_spec shares idxs pts :
  subsetOf shares idxs = Ok pts ->
  exists t, idxs = map Some t /\
            Forall (fun i => (i < length shares)%nat) t /\
            pts = map (pointAt shares) t.
Proof.
  revert pts. induction idxs as [|o idxs IH]; intros pts H.
  - injection H as <-. exists []. repeat split. constructor.
  - cbn [subsetOf] in H. destruct o as [i|]; [|discriminate].
    destruct (nth_error shares i) as [s|] eqn:Es; [|discriminate].
    destruct (subsetOf shares idxs) as [rest|]; [|discriminate].
    cbn [bind] in H. injection H as <-.
    destruct (IH rest eq_refl) as [t [-> [Hb ->]]].
    exists (i :: t). split; [reflexivity|]. split.
    + constructor; [|assumption]. apply nth_error_Some. congruence.
    + cbn [map]. unfold pointAt at 2. now rewrite Es.
Qed.

Lemma agreeLoop_spec shares subset cnt :
  forall i agreeMask count agreeMask' count',
    agreeLoop shares subset cnt i agreeMask count = Ok (agreeMask', count') ->
    count' = count + Z.of_nat (length (filter (agreeAt shares subset) (seq i cnt))) /\
    length agreeMask' = length agreeMask /\
    (forall j, nth j agreeMask false = true -> nth j agreeMask' false = true) /\
    (forall j, (i <= j < i + cnt)%nat -> (j < length agreeMask)%nat ->
               agreeAt shares subset j = true -> nth j agreeMask' false = true).
Proof.
  induction cnt as [|cnt IH]; intros i mask count mask' count' H.
  - injection H as <- <-. simpl. split; [lia|]. split; [reflexivity|].
    split; [auto|]. intros; lia.
  - cbn [agreeLoop] in H.
    destruct (nth_error shares i) as [s|] eqn:Es; [|discriminate].
    destruct (lagrangeEvalAt subset (Share.x s)) as [expected|] eqn:El;
      [|discriminate].
    cbn [bind] in H.
    assert (Ha : agreeAt shares subset i
                 = (Rational.d expected =? 1) && (Rational.n expected =? Share.y s)).
    { unfold agreeAt. now rewrite Es, El. }
    rewrite <- Ha in H. cbn [seq filter]. destruct (agreeAt shares subset i) eqn:Eg.
    + apply IH in H as [Hc [Hl [Hm Hp]]]. rewrite length_setNth in Hl, Hp.
      split; [cbn [length]; lia|]. split; [assumption|]. split.
      * intros j Hj. apply Hm. destruct (Nat.eq_dec i j) as [->|Hne].
        -- apply nth_setNth_same.
           destruct (Nat.lt_ge_cases j (length mask)); [assumption|].
           rewrite nth_overflow in Hj by assumption. discriminate.
        -- now rewrite nth_setNth_other.
      * intros j Hj Hlen Hag. destruct (Nat.eq_dec i j) as [->|Hne].
        -- apply Hm. now apply nth_setNth_same.
        -- apply Hp; [lia|assumption|assumption].
    + apply IH in H as [Hc [Hl [Hm Hp]]].
      split; [assumption|]. split; [assumption|]. split; [assumption|].
      intros j Hj Hlen Hag. destruct (Nat.eq_dec i j) as [->|Hne]; [congruence|].
      apply Hp; [lia|assumption|assumption].
Qed.

Lemma evalCandidate_inv shares n idxs f0n agreeMask count :
  evalCandidate shares n idxs = Ok (Some (f0n, agreeMask, count)) ->
  exists pts f0,
    subsetOf shares idxs = Ok pts /\
    lagrangeEvalAt pts 0 = Ok f0 /\ Rational.d f0 = 1 /\ f0n = Rational.n f0 /\
    agreeLoop shares pts n 0 (repeat false n) 0 = Ok (agreeMask, count).
Proof.
  unfold evalCandidate. intros H.
  destruct (subsetOf shares idxs) as [pts|]; [|discriminate]. cbn [bind] in H.
  destruct (lagrangeEvalAt pts 0) as [f0|] eqn:El; [|discriminate].
  cbn [bind] in H.
  destruct (Z.eqb_spec (Rational.d f0) 1) as [Hd|Hd]; cbn [negb] in H;
    [|discriminate].
  destruct (agreeLoop shares pts n 0 (repeat false n) 0) as [[mask c]|] eqn:Ea;
    [|discriminate].
  cbn [bind] in H. injection H as <- <- <-.
  exists pts, f0. repeat split; assumption.
Qed.

(** An agreement count lies between 0 and [n]. *)
Lemma evalCandidate_count_le shares n idxs f0n agreeMask count :
  evalCandidate shares n idxs = Ok (Some (f0n, agreeMask, count)) ->
  0 <= count <= Z.of_nat n.
Proof.
  intros H. apply evalCandidate_inv in H as [pts [f0 [_ [_ [_ [_ H]]]]]].
  apply agreeLoop_spec in H as [-> _].
  pose proof (filter_length_le (agreeAt shares pts) (seq 0 n)) as Hle.
  rewrite length_seq in Hle. lia.
Qed.

(** An evaluation that does not throw had pairwise distinct abscissas. *)
Lemma lagrangeEvalAt_Ok_NoDup points x0 r :
  lagrangeEvalAt points x0 = Ok r -> NoDup (map Point.x points).
Proof.
  intros H.
  assert (Hnodup : ~ duplicateX points).
  { intros Hd. rewrite (lagrangeEvalAt_duplicate points x0 Hd) in H.
    discriminate. }
  clear H. induction points as [|p points IH]; [constructor|].
  cbn [map]. constructor.
  - intros Hin. apply in_map_iff in Hin. destruct Hin as [q [Hx Hq]].
    apply In_nth_error in Hq as [j Hj]. apply Hnodup.
    exists O, (S j), p, q. repeat split; auto.
  - apply IH. intros [i [j [pi [pj [Hne [Hi [Hj Hx]]]]]]]. apply Hnodup.
    exists (S i), (S j), pi, pj. repeat split; auto.
Qed.

(** Every share of a subset that passes the integrality test agrees with the
    polynomial through the subset. *)
Lemma evalCandidate_members shares idxs f0n agreeMask count :
  evalCandidate shares (length shares) idxs = Ok (Some (f0n, agreeMask, count)) ->
  exists t, idxs = map Some t /\ NoDup t /\
            Forall (fun i => (i < length shares)%nat) t /\
            (forall i, In i t -> nth i agreeMask false = true) /\
            Z.of_nat (length t) <= count.
Proof.
  intros H. apply evalCandidate_inv in H as [pts [f0 [Hs [Hl [_ [_ Ha]]]]]].
  apply subsetOf_spec in Hs as [t [-> [Hb ->]]].
  apply lagrangeEvalAt_Ok_NoDup in Hl.
  assert (Hnd : NoDup t) by (now apply NoDup_map_inv in Hl; apply NoDup_map_inv in Hl).
  apply agreeLoop_spec in Ha as [Hc [_ [_ Hp]]]. rewrite repeat_length in Hp.
  assert (Hag : forall i, In i t -> agreeAt shares (map (pointAt shares) t) i = true).
  { intros i Hi. pose proof (proj1 (Forall_forall _ _) Hb i Hi) as Hlt.
    simpl in Hlt. unfold agreeAt.
    destruct (nth_error shares i) as [s|] eqn:Es;
      [|apply nth_error_None in Es; lia].
    assert (Hin : In (Point.mk (Share.x s) (Share.y s)) (map (pointAt shares) t)).
    { apply in_map_iff. exists i. split; [|assumption].
      unfold pointAt. now rewrite Es. }
    pose proof (lagrangeEvalAt_node _ _ Hl Hin) as E.
    cbn [Point.x Point.y] in E. rewrite E. simpl Rational.d. simpl Rational.n.
    rewrite !Z.eqb_refl. reflexivity. }
  exists t. split; [reflexivity|]. split; [assumption|].
  split; [assumption|]. split.
  - intros i Hi. pose proof (proj1 (Forall_forall _ _) Hb i Hi) as Hlt.
    simpl in Hlt. apply Hp; [lia|assumption|now apply Hag].
  - rewrite Hc, Z.add_0_l. apply inj_le. apply NoDup_incl_length.
    + assumption.
    + intros i Hi. apply filter_In. split; [|now apply Hag].
      apply in_seq. pose proof (proj1 (Forall_forall _ _) Hb i Hi). simpl in *. lia.
Qed.

(** *** The search loop *)

Lemma genNext_ok {A : Type} (arr : list A) k st v st1 :
  genOk k st -> genNext arr k st = Some (v, st1) -> length v = k /\ genOk k st1.
Proof.
  intros Hok H. destruct st as [| |t]; cbn [genNext] in H; try discriminate.
  - destruct (Nat.eqb_spec k 0) as [->|Hk]; injection H as <- <-.
    + split; [reflexivity|exact I].
    + unfold pick. rewrite length_map, length_seq. split; [reflexivity|].
      apply length_seq.
  - simpl in Hok. subst k. rewrite advance_successor in H.
    destruct (successor (length arr) t) as [u|] eqn:Es; [|discriminate].
    injection H as <- <-. apply successor_length in Es.
    unfold pick. rewrite length_map. split; assumption.
Qed.

Lemma genYields_length {A : Type} (arr : list A) k st vs st' :
  genYields arr k st vs st' -> genOk k st -> Forall (fun v => length v = k) vs.
Proof.
  induction 1 as [st|st v st1 vs st2 Hn _ IH]; intros Hok; [constructor|].
  destruct (genNext_ok arr k st v st1 Hok Hn) as [Hl Hok1].
  constructor; [assumption|]. now apply IH.
Qed.

Lemma updateBest_cases n idxs cand best :
  (exists c, cand = Some c /\ agreeCount best < snd c /\
             updateBest n idxs cand best = (winner idxs c, snd c =? Z.of_nat n)) \/
  ((cand = None \/ exists c, cand = Some c /\ snd c <= agreeCount best) /\
   updateBest n idxs cand best = (best, false)).
Proof.
  unfold updateBest. destruct cand as [[[f0n mask] count]|].
  - rewrite Z.gtb_ltb. destruct (Z.ltb_spec (agreeCount best) count) as [Hlt|Hge].
    + left. exists (f0n, mask, count). repeat split. assumption.
    + right. split; [|reflexivity]. right. exists (f0n, mask, count). split; [reflexivity|assumption].
  - right. split; [now left|reflexivity].
Qed.

Lemma beaten_intro shares n bound (strict : bool) v c :
  evalCandidate shares n v = Ok c ->
  (forall x, c = Some x ->
             if strict return Prop then snd x < bound else snd x <= bound) ->
  beaten shares n bound strict v.
Proof.
  intros He Hc. exists c. split; [assumption|].
  destruct c as [[[f0n mask] count]|]; [|exact I]. exact (Hc _ eq_refl).
Qed.

Section Search.

Variables (shares : list Share.t) (n k : nat) (indices : list nat).

(** A search that ends without error ends as [finished] describes. *)
Lemma search_sound fuel :
  forall st best best',
    agreeCount best < Z.of_nat n ->
    search fuel shares n k indices st best = Some (Ok best') ->
    finished shares n k indices st best best'.
Proof.
  induction fuel as [|fuel IH]; intros st best best' Hinv H; [discriminate|].
  unfold finished. cbn [search] in H.
  destruct (genNext indices k st) as [[idxs st1]|] eqn:Eg.
  2:{ injection H as <-. exists [], st. split; [constructor|].
      split; [constructor|]. split; [now left|]. left. now split. }
  destruct (evalCandidate shares n idxs) as [cand|e] eqn:Ee; [|discriminate].
  destruct (updateBest_cases n idxs cand best)
    as [[c [-> [Hgt Hu]]]|[Hle Hu]]; rewrite Hu in H.
  - assert (Hw : agreeCount (winner idxs c) = snd c)
      by (destruct c as [[f0n mask] count]; reflexivity).
    destruct (Z.eqb_spec (snd c) (Z.of_nat n)) as [Hn|Hn].
    + injection H as <-. exists [idxs], st1.
      split; [econstructor; [eassumption|constructor]|].
      split.
      { constructor; [|constructor]. apply (beaten_intro _ _ _ _ _ _ Ee).
        intros x [= <-]. rewrite Hw. simpl. lia. }
      split.
      { right. exists [], idxs, [], c. repeat split; try assumption.
        - rewrite Hw. assumption.
        - constructor. }
      right. split; [now rewrite Hw|]. exists [], idxs, c. repeat split. assumption.
    + assert (Hc : snd c < Z.of_nat n).
      { destruct c as [[f0n mask] count]. apply evalCandidate_count_le in Ee.
        simpl in *. lia. }
      destruct (IH st1 (winner idxs c) best' ltac:(rewrite Hw; exact Hc) H)
        as [vs [st' [Hy [Hall [Hbest Hend]]]]].
      assert (Hmono : snd c <= agreeCount best').
      { destruct Hbest as [->|[_ [_ [_ [_ [_ [_ [_ [Hlt _]]]]]]]]]; lia. }
      exists (idxs :: vs), st'.
      split; [econstructor; eassumption|].
      split.
      { constructor; [|assumption]. apply (beaten_intro _ _ _ _ _ _ Ee).
        intros x [= <-]. simpl. assumption. }
      split.
      { right. destruct Hbest as [->|[pre [i1 [post [c1 [-> [He1 [-> [Hlt Hpre]]]]]]]]].
        - exists [], idxs, vs, c. repeat split; try assumption.
          + rewrite Hw. assumption.
          + constructor.
        - exists (idxs :: pre), i1, post, c1. repeat split; try assumption.
          + lia.
          + constructor; [|assumption]. apply (beaten_intro _ _ _ _ _ _ Ee).
            intros x [= <-]. simpl. lia. }
      destruct Hend as [Hend|[Hfull [pre [i1 [c1 [-> [He1 ->]]]]]]]; [now left|].
      right. split; [assumption|]. exists (idxs :: pre), i1, c1.
      repeat split. assumption.
  - destruct (IH st1 best best' Hinv H) as [vs [st' [Hy [Hall [Hbest Hend]]]]].
    assert (Hmono : agreeCount best <= agreeCount best').
    { destruct Hbest as [->|[_ [_ [_ [_ [_ [_ [_ [Hlt _]]]]]]]]]; lia. }
    assert (Hb : forall strict, (strict = true -> agreeCount best < agreeCount best') ->
                                beaten shares n (agreeCount best') strict idxs).
    { intros strict Hstrict. apply (beaten_intro _ _ _ _ _ _ Ee).
      intros x ->. destruct Hle as [Hle|[c [[= <-] Hle]]]; [discriminate|].
      destruct strict; [specialize (Hstrict eq_refl)|]; lia. }
    exists (idxs :: vs), st'.
    split; [econstructor; eassumption|].
    split; [constructor; [apply Hb; discriminate|assumption]|].
    split.
    { destruct Hbest as [->|[pre [i1 [post [c1 [-> [He1 [-> [Hlt Hpre]]]]]]]]];
        [now left|right].
      exists (idxs :: pre), i1, post, c1. repeat split; try assumption.
      constructor; [|assumption]. apply Hb. intros _. assumption. }
    destruct Hend as [Hend|[Hfull [pre [i1 [c1 [-> [He1 ->]]]]]]]; [now left|].
    right. split; [assumption|]. exists (idxs :: pre), i1, c1.
    repeat split. assumption.
Qed.

(** A subset whose count is [n] ends the search at once, whatever the
    generator would yield next. *)
Lemma search_early_exit idxs f0n agreeMask st' pre :
  forall st best m,
    agreeCount best < Z.of_nat n ->
    genYields indices k st (pre ++ [idxs]) st' ->
    notFull shares n pre ->
    evalCandidate shares n idxs = Ok (Some (f0n, agreeMask, Z.of_nat n)) ->
    search (S (length pre) + m) shares n k indices st best
    = Some (Ok (winner idxs (f0n, agreeMask, Z.of_nat n))).
Proof.
  unfold notFull.
  induction pre as [|v pre IH]; intros st best m Hinv Hy Hpre He.
  - inversion Hy as [|? ? st1 ? ? Hn Hy']; subst.
    cbn [length Nat.add search]. rewrite Hn, He. cbn [updateBest].
    rewrite Z.gtb_ltb.
    destruct (Z.ltb_spec (agreeCount best) (Z.of_nat n)); [|lia].
    now rewrite Z.eqb_refl.
  - cbn [app] in Hy. inversion Hy as [|? ? st1 ? ? Hn Hy']; subst.
    inversion Hpre as [|? ? [c [Hc Hne]] Hpre']; subst.
    cbn [length Nat.add search]. rewrite Hn, Hc.
    destruct (updateBest_cases n v c best) as [[x [-> [Hgt Hu]]]|[_ Hu]];
      rewrite Hu.
    + destruct (Z.eqb_spec (snd x) (Z.of_nat n)) as [E|_];
        [now apply Hne in E|].
      apply IH; try assumption.
      destruct x as [[f m0] cnt]. apply evalCandidate_count_le in Hc.
      specialize (Hne _ eq_refl). simpl in *. lia.
    + now apply IH.
Qed.

End Search.

(** C5.  The search keeps the first subset, in enumeration order, that
    reaches the final agreement count: a finished search evaluated a prefix
    of the enumeration in which no subset has a count above the final one
    and every subset before the one kept has a count strictly below it; and
    a subset whose count is [n] ends the search with that subset's
    reconstruction, within the iterations spent up to it and whatever the
    generator would yield after it. *)
Theorem search_first_best (shares : list Share.t) (n k : nat) (indices : list nat) :
  (forall fuel st best best',
      agreeCount best < Z.of_nat n ->
      search fuel shares n k indices st best = Some (Ok best') ->
      finished shares n k indices st best best') /\
  (forall pre idxs f0n agreeMask st st' best m,
      agreeCount best < Z.of_nat n ->
      genYields indices k st (pre ++ [idxs]) st' ->
      notFull shares n pre ->
      evalCandidate shares n idxs = Ok (Some (f0n, agreeMask, Z.of_nat n)) ->
      search (S (length pre) + m) shares n k indices st best
      = Some (Ok (winner idxs (f0n, agreeMask, Z.of_nat n)))).
Proof.
  split.
  - intros fuel st best best'. apply search_sound.
  - intros pre idxs f0n agreeMask st st' best m.
    now apply search_early_exit.
Qed.

Lemma search_first_best_witness :
  finished scenarioShares 4 3 [0; 1; 2; 3]%nat GenStart (mkBest (-1) None)
           scenarioBest /\
  search 1 lineShares 3 2 [0; 1; 2]%nat GenStart (mkBest (-1) None)
  = Some (Ok (winner [Some 0; Some 1]%nat (1, [true; true; true], 3))).
Proof.
  split.
  - apply (proj1 (search_first_best scenarioShares 4 3 [0; 1; 2; 3]%nat)
                 5%nat GenStart (mkBest (-1) None) scenarioBest).
    + simpl. lia.
    + vm_compute. reflexivity.
  - apply (proj2 (search_first_best lineShares 3 2 [0; 1; 2]%nat)
                 [] [Some 0; Some 1]%nat 1 [true; true; true]
                 GenStart (GenYielded [0; 1]%nat) (mkBest (-1) None) 0%nat).
    + simpl. lia.
    + apply (genYields_cons _ _ GenStart _ (GenYielded [0; 1]%nat));
        [reflexivity|constructor].
    + constructor.
    + vm_compute. reflexivity.
Defined.

(** *** The result *)

Lemma length_readShares es shares :
  readShares es = Ok shares -> length shares = length es.
Proof.
  revert shares. induction es as [|e es IH]; intros shares H.
  - now injection H as <-.
  - cbn [readShares] in H.
    destruct (parseBigIntInBase (value e) (base e)); [|discriminate].
    cbn [bind] in H. destruct (readShares es) as [rest|]; [|discriminate].
    cbn [bind] in H. injection H as <-. simpl. now rewrite (IH rest).
Qed.

Lemma length_insertShare s l : length (insertShare s l) = S (length l).
Proof.
  induction l as [|h t IH]; [reflexivity|]. simpl.
  destruct (Share.idx s <=? Share.idx h); simpl; [reflexivity|now rewrite IH].
Qed.

Lemma length_sortShares l : length (sortShares l) = length l.
Proof.
  induction l as [|s t IH]; [reflexivity|]. simpl.
  now rewrite length_insertShare, IH.
Qed.

(** Lines 119-123 split the positions by the mask. *)
Lemma classify_spec shares best f cnt :
  found best = Some f ->
  forall i consistent inconsistent,
    (i + cnt <= length shares)%nat ->
    classify shares best cnt i consistent inconsistent
    = Ok (consistent
            ++ map (idxAt shares)
                   (filter (fun j => nth j (f_agrees f) false) (seq i cnt)),
          inconsistent
            ++ map (idxAt shares)
                   (filter (fun j => negb (nth j (f_agrees f) false)) (seq i cnt))).
Proof.
  intros Hf. induction cnt as [|cnt IH]; intros i cons incons Hlen.
  - simpl. now rewrite !app_nil_r.
  - cbn [classify]. rewrite Hf.
    destruct (nth_error shares i) as [s|] eqn:Es;
      [|apply nth_error_None in Es; lia].
    assert (Hi : idxAt shares i = Share.idx s) by (unfold idxAt; now rewrite Es).
    cbn [seq filter]. destruct (nth i (f_agrees f) false); cbn [negb].
    + rewrite IH by lia. cbn [map]. now rewrite Hi, <- app_assoc.
    + rewrite IH by lia. cbn [map]. now rewrite Hi, <- app_assoc.
Qed.

(** Without a stored candidate the solver throws at the read of
    [best.agrees], or of [best.secretF0] when [n = 0]. *)
Lemma finish_no_candidate shares n k best :
  found best = None -> finish shares n k best = Err TypeError.
Proof.
  intros Hf. unfold finish. destruct n as [|n].
  - cbn [classify bind]. now rewrite Hf.
  - cbn [classify]. now rewrite Hf.
Qed.

(** When every subset of [k] positions that is evaluated is discarded, the
    search leaves [best] as it was, and the solver throws a [TypeError]. *)
Lemma no_candidate_TypeError fuel inputObj shares0 best' :
  readShares (entries inputObj) = Ok shares0 ->
  (forall idxs c,
      length idxs = keys_k inputObj ->
      evalCandidate (sortShares shares0) (keys_n inputObj) idxs = Ok c -> c = None) ->
  search fuel (sortShares shares0) (keys_n inputObj) (keys_k inputObj)
         (seq 0 (length (sortShares shares0))) GenStart (mkBest (-1) None)
  = Some (Ok best') ->
  best' = mkBest (-1) None /\ solveShamirLike fuel inputObj = Some (Err TypeError).
Proof.
  intros Hr Hnone Hs.
  assert (Hinv : agreeCount (mkBest (-1) None) < Z.of_nat (keys_n inputObj))
    by (simpl; lia).
  assert (Hb : best' = mkBest (-1) None).
  { destruct (search_sound _ _ _ _ _ _ _ _ Hinv Hs)
      as [vs [st' [Hy [_ [[->|[pre [idxs [post [c [-> [He _]]]]]]] _]]]]];
      [reflexivity|].
    apply genYields_length in Hy; [|exact I].
    apply Hnone in He; [discriminate|].
    apply (proj1 (Forall_forall _ _) Hy). apply in_elt. }
  split; [assumption|]. unfold solveShamirLike. rewrite Hr, Hs. subst best'.
  now rewrite finish_no_candidate.
Qed.

(** C9.  For an input with as many shares as its [n]: every share of a
    subset that passes the integrality test is flagged in that subset's
    mask, and the subset's count is at least its size; hence a result that
    is returned comes from a [best] whose count is at least [k], and lists
    at least [k] consistent indices. *)
Theorem subset_shares_agree (inputObj : Input) (fuel : nat)
        (shares0 : list Share.t) :
  keys_n inputObj = length (entries inputObj) ->
  readShares (entries inputObj) = Ok shares0 ->
  (forall idxs f0n agreeMask count,
      evalCandidate (sortShares shares0) (keys_n inputObj) idxs
      = Ok (Some (f0n, agreeMask, count)) ->
      (forall i, In (Some i) idxs -> nth i agreeMask false = true) /\
      Z.of_nat (length idxs) <= count) /\
  (forall out,
      solveShamirLike fuel inputObj = Some (Ok out) ->
      (keys_k inputObj <= length (consistentShareIndices out))%nat /\
      exists best',
        search fuel (sortShares shares0) (keys_n inputObj) (keys_k inputObj)
               (seq 0 (length (sortShares shares0))) GenStart (mkBest (-1) None)
        = Some (Ok best') /\
        Z.of_nat (keys_k inputObj) <= agreeCount best').
Proof.
  intros Hn Hr.
  assert (Hlen : keys_n inputObj = length (sortShares shares0)).
  { now rewrite length_sortShares, (length_readShares _ _ Hr). }
  split.
  - intros idxs f0n mask count He. rewrite Hlen in He.
    apply evalCandidate_members in He as [t [-> [_ [_ [Hm Hc]]]]].
    split; [|now rewrite length_map].
    intros i Hi. apply in_map_iff in Hi. destruct Hi as [j [[= ->] Hj]]. now apply Hm.
  - intros out H. unfold solveShamirLike in H. rewrite Hr in H.
    destruct (search fuel _ _ _ _ _ _) as [[best'|e]|] eqn:Es; try discriminate.
    injection H as H.
    destruct (found best') as [f|] eqn:Ef;
      [|rewrite finish_no_candidate in H by assumption; discriminate].
    assert (Hinv : agreeCount (mkBest (-1) None) < Z.of_nat (keys_n inputObj))
      by (simpl; lia).
    destruct (search_sound _ _ _ _ _ _ _ _ Hinv Es)
      as [vs [st' [Hy [_ [[->|[pre [idxs [post [c [-> [He [-> _]]]]]]]] _]]]]];
      [discriminate|].
    destruct c as [[f0n mask] count]. cbn [winner found] in Ef. injection Ef as <-.
    assert (Hk : length idxs = keys_k inputObj).
    { apply genYields_length in Hy; [|exact I].
      apply (proj1 (Forall_forall _ _) Hy). apply in_elt. }
    rewrite Hlen in He.
    apply evalCandidate_members in He as [t [-> [Hnd [Hb [Hm Hc]]]]].
    rewrite length_map in Hk.
    unfold finish in H.
    rewrite (classify_spec _ _ (mkFound f0n (map Some t) mask)) in H;
      [|reflexivity|lia].
    cbn [bind winner found f_secretF0 f_agrees app] in H. injection H as <-.
    cbn [consistentShareIndices]. rewrite length_map. split.
    + rewrite <- Hk. apply NoDup_incl_length; [assumption|].
      intros i Hi. apply filter_In. split; [|now apply Hm].
      apply in_seq. pose proof (proj1 (Forall_forall _ _) Hb i Hi).
      simpl in *. lia.
    + exists (mkBest count (Some (mkFound f0n (map Some t) mask))).
      split; [reflexivity|]. simpl. lia.
Qed.

Lemma subset_shares_agree_witness :
  (forall idxs f0n agreeMask count,
      evalCandidate (sortShares scenarioShares) 4 idxs
      = Ok (Some (f0n, agreeMask, count)) ->
      (forall i, In (Some i) idxs -> nth i agreeMask false = true) /\
      Z.of_nat (length idxs) <= count) /\
  (forall out,
      solveShamirLike 5 scenario = Some (Ok out) ->
      (3 <= length (consistentShareIndices out))%nat /\
      exists best',
        search 5 (sortShares scenarioShares) 4 3
               (seq 0 (length (sortShares scenarioShares))) GenStart (mkBest (-1) None)
        = Some (Ok best') /\
        Z.of_nat 3 <= agreeCount best').
Proof.
  apply (subset_shares_agree scenario 5 scenarioShares); reflexivity.
Defined.

(** C9 does not hold for every input the solver can receive: on [skewed],
    which declares [n = 2] and carries three shares, the subset of the
    positions 0 and 2 passes the integrality test with [f0 = -1], but the
    agreement loop runs over the positions below [n] only, so its member at
    position 2 is never flagged and its count is 1; the solver returns one
    consistent index for [k = 2]. *)
Lemma subset_shares_agree_counterexample :
  readShares (entries skewed)
  = Ok [Share.mk 1 1 0; Share.mk 3 3 1; Share.mk 4 4 3] /\
  evalCandidate [Share.mk 1 1 0; Share.mk 3 3 1; Share.mk 4 4 3] (keys_n skewed)
                [Some 0; Some 2]%nat
  = Ok (Some (-1, [true; false], 1)) /\
  solveShamirLike 4 skewed = Some (Ok (mkOutput 2 1 "-1" [1] [3])) /\
  ~ (forall inputObj fuel out,
        solveShamirLike fuel inputObj = Some (Ok out) ->
        (keys_k inputObj <= length (consistentShareIndices out))%nat).
Proof.
  split; [reflexivity|]. split; [vm_compute; reflexivity|].
  assert (E : solveShamirLike 4 skewed = Some (Ok (mkOutput 2 1 "-1" [1] [3])))
    by (vm_compute; reflexivity).
  split; [exact E|]. intros H. specialize (H skewed 4%nat _ E).
  simpl in H. lia.
Qed.

(** More fuel does not change a result. *)
Lemma search_fuel_mono shares n k indices fuel :
  forall st best r m,
    search fuel shares n k indices st best = Some r ->
    search (fuel + m) shares n k indices st best = Some r.
Proof.
  induction fuel as [|fuel IH]; intros st best r m; [discriminate|].
  cbn [search Nat.add].
  destruct (genNext indices k st) as [[idxs st']|]; [|trivial].
  destruct (evalCandidate shares n idxs) as [cand|e]; [|trivial].
  destruct (updateBest n idxs cand best) as [best' stop].
  destruct stop; [trivial|]. apply IH.
Qed.

Lemma solveShamirLike_fuel_mono fuel inputObj r m :
  solveShamirLike fuel inputObj = Some r ->
  solveShamirLike (fuel + m) inputObj = Some r.
Proof.
  unfold solveShamirLike.
  destruct (readShares (entries inputObj)) as [shares0|e]; [|trivial].
  destruct (search fuel _ _ _ _ _ _) as [r0|] eqn:E; [|discriminate].
  now rewrite (search_fuel_mono _ _ _ _ _ _ _ _ m E).
Qed.

(** The search loop ends: within [binomial (length indices) k + 1]
    iterations when [k <= length indices], and otherwise at the first
    subset, which has an undefined element. *)
Lemma search_of_drain shares n k indices f :
  forall st ys best m,
    genDrain f indices k st = Some ys ->
    exists r, search (f + m) shares n k indices st best = Some r.
Proof.
  induction f as [|f IH]; intros st ys best m H; [discriminate|].
  cbn [genDrain] in H. cbn [Nat.add search].
  destruct (genNext indices k st) as [[v st']|]; [|eauto].
  destruct (genDrain f indices k st') as [vs|] eqn:Ed; [|discriminate].
  destruct (evalCandidate shares n v) as [cand|e]; [|eauto].
  destruct (updateBest n v cand best) as [best' stop].
  destruct stop; [eauto|]. eapply IH; eassumption.
Qed.

Lemma subsetOf_undefined shares idxs :
  In None idxs -> subsetOf shares idxs = Err TypeError.
Proof.
  induction idxs as [|o idxs IH]; intros Hin; [destruct Hin|].
  cbn [subsetOf]. destruct o as [i|]; [|reflexivity].
  destruct (nth_error shares i); [|reflexivity].
  destruct Hin as [Hin|Hin]; [discriminate|]. now rewrite IH.
Qed.

Lemma search_terminates shares n k indices best :
  exists fuel r, forall m,
    search (fuel + m) shares n k indices GenStart best = Some r.
Proof.
  destruct (Nat.le_gt_cases k (length indices)) as [Hk|Hk].
  - pose proof (combinations_subsetsFrom indices k 0 Hk) as Hd.
    unfold combinations in Hd. rewrite Nat.add_0_r in Hd.
    destruct (search_of_drain shares n k indices _ GenStart _ best 0 Hd) as [r Hr].
    rewrite Nat.add_0_r in Hr.
    exists (S (binomial (length indices) k)), r. intros m.
    now apply search_fuel_mono.
  - exists 1%nat, (Err TypeError). intros m. cbn [Nat.add search genNext].
    destruct (Nat.eqb_spec k 0) as [->|Hk0]; [lia|].
    unfold evalCandidate. rewrite subsetOf_undefined; [reflexivity|].
    unfold pick. apply in_map_iff. exists (k - 1)%nat. split.
    + apply nth_error_None. lia.
    + apply in_seq. lia.
Qed.

(** The solver returns a result or throws, for every input. *)
Lemma solveShamirLike_terminates inputObj :
  exists fuel r, forall m, solveShamirLike (fuel + m) inputObj = Some r.
Proof.
  unfold solveShamirLike.
  destruct (readShares (entries inputObj)) as [shares0|e].
  - destruct (search_terminates (sortShares shares0) (keys_n inputObj)
                (keys_k inputObj) (seq 0 (length (sortShares shares0)))
                (mkBest (-1) None)) as [fuel [r Hr]].
    exists fuel. destruct r as [best'|e].
    + eexists. intros m. rewrite Hr. reflexivity.
    + eexists. intros m. rewrite Hr. reflexivity.
  - exists O. eexists. intros m. reflexivity.
Qed.

(** C2.  On the scenario of the specification the solver returns the secret
    "1", the consistent indices [1, 2, 3] and the inconsistent index [4],
    as soon as the search loop is given its five iterations. *)
Theorem scenario_result (m : nat) :
  solveShamirLike (5 + m) scenario
  = Some (Ok (mkOutput 3 2 "1" [1; 2; 3] [4])).
Proof.
  apply solveShamirLike_fuel_mono. vm_compute. reflexivity.
Qed.

(** C1.  On [unfit], whose shares are (1, 0) and (3, 1), the only subset
    gives [f0 = -1/2] and is discarded; the solver then reads
    [best.agrees[0]] on a [best] that has no [agrees], and throws a
    [TypeError] instead of reporting that no reconstruction is consistent. *)
Theorem unfit_TypeError (m : nat) :
  exists shares,
    readShares (entries unfit) = Ok shares /\
    sortShares shares = shares /\
    combinations (2 + m) (seq 0 (length shares)) (keys_k unfit)
    = Some [[Some 0; Some 1]%nat] /\
    evalCandidate shares (keys_n unfit) [Some 0; Some 1]%nat = Ok None /\
    solveShamirLike (2 + m) unfit = Some (Err TypeError).
Proof.
  exists [Share.mk 1 1 0; Share.mk 3 3 1].
  split; [reflexivity|]. split; [reflexivity|]. split; [|split].
  - apply (combinations_subsetsFrom [0; 1]%nat 2 m). simpl. lia.
  - vm_compute. reflexivity.
  - apply solveShamirLike_fuel_mono. vm_compute. reflexivity.
Qed.

(** * Further properties of the code *)

(** ** [bigIntGcd] and the [Rational] class *)

(** X1.  [bigIntGcd(a, b)] is the greatest common divisor of [a] and [b]:
    it is not negative, divides both, and is divided by every common
    divisor; with a zero argument it is the absolute value of the other. *)
Theorem bigIntGcd_greatest (a b : Z) :
  0 <= bigIntGcd a b /\
  (bigIntGcd a b | a) /\ (bigIntGcd a b | b) /\
  (forall c, (c | a) -> (c | b) -> (c | bigIntGcd a b)) /\
  bigIntGcd 0 b = Z.abs b /\ bigIntGcd a 0 = Z.abs a.
Proof.
  rewrite !bigIntGcd_gcd. split; [apply Z.gcd_nonneg|].
  split; [apply Z.gcd_divide_l|]. split; [apply Z.gcd_divide_r|].
  split; [intros c; apply Z.gcd_greatest|].
  split; [apply Z.gcd_0_l|apply Z.gcd_0_r].
Qed.

Lemma bigIntGcd_greatest_witness :
  (6 | bigIntGcd (-12) 18) /\ bigIntGcd (-12) 18 = 6.
Proof.
  split; [|reflexivity].
  apply (proj1 (proj2 (proj2 (proj2 (bigIntGcd_greatest (-12) 18))))).
  - exists (-2). reflexivity.
  - exists 3. reflexivity.
Defined.

(** X2.  The constructor throws "Zero denominator" exactly on a zero
    denominator and throws nothing else; otherwise the object it builds has
    a positive denominator and stands for [n0 / d0]. *)
Theorem new_contract (n0 d0 : Z) :
  (Rational.new n0 d0 = Err ZeroDenominator <-> d0 = 0) /\
  (forall e, Rational.new n0 d0 = Err e -> e = ZeroDenominator) /\
  (d0 <> 0 ->
   exists r, Rational.new n0 d0 = Ok r /\ 0 < Rational.d r /\
             Rational.n r * d0 = n0 * Rational.d r /\
             (toQc r = Zc n0 / Zc d0)%Qc).
Proof.
  split; [|split].
  - split.
    + intros H. now apply new_err in H.
    + intros ->. reflexivity.
  - intros e H. now apply new_err in H.
  - intros Hnz. destruct (new_ok n0 d0 Hnz) as [r [E [[Hd Hg] Hv]]].
    exists r. split; [assumption|]. split; [assumption|].
    split; [assumption|]. now apply toQc_new.
Qed.

Lemma new_contract_witness :
  exists r, Rational.new 6 (-4) = Ok r /\ 0 < Rational.d r /\
            Rational.n r * (-4) = 6 * Rational.d r /\
            (toQc r = Zc 6 / Zc (-4))%Qc.
Proof.
  apply (proj2 (proj2 (new_contract 6 (-4)))). discriminate.
Defined.

Lemma ok_of_value (res : result Rational.t) (target : Rational.t) :
  (exists r, res = Ok r /\ canonical r /\ toQc r = toQc target) ->
  canonical target -> res = Ok target.
Proof.
  intros [r [-> [Hc Hv]]] Ht. f_equal. now apply canonical_toQc_inj.
Qed.

Lemma new_value n0 d0 :
  d0 <> 0 ->
  exists r, Rational.new n0 d0 = Ok r /\ canonical r /\
            (toQc r = Zc n0 / Zc d0)%Qc.
Proof.
  intros Hnz. destruct (new_ok n0 d0 Hnz) as [r [E [Hc _]]].
  exists r. split; [assumption|]. split; [assumption|]. now apply toQc_new.
Qed.

(** X3.  Normalization does not depend on a common factor: the constructor
    builds the same object from [(n0 * m, d0 * m)] as from [(n0, d0)], and
    rebuilds a canonical object from its own fields. *)
Theorem new_common_factor (n0 d0 m : Z) (r : Rational.t) :
  m <> 0 -> d0 <> 0 ->
  Rational.new (n0 * m) (d0 * m) = Rational.new n0 d0 /\
  (canonical r -> Rational.new (Rational.n r) (Rational.d r) = Ok r).
Proof.
  intros Hm Hd. split.
  - destruct (new_value n0 d0 Hd) as [r0 [E0 [Hc0 Hv0]]]. rewrite E0.
    apply ok_of_value; [|assumption].
    destruct (new_value (n0 * m) (d0 * m) ltac:(nia)) as [r1 [E1 [Hc1 Hv1]]].
    exists r1. split; [assumption|]. split; [assumption|].
    rewrite Hv1, Hv0, !Zc_mul.
    assert (Zc m <> 0%Qc) by now apply Zc_nonzero.
    assert (Zc d0 <> 0%Qc) by now apply Zc_nonzero.
    field. split; assumption.
  - intros Hc. apply ok_of_value; [|assumption].
    destruct (new_value (Rational.n r) (Rational.d r)) as [r1 [E1 [Hc1 Hv1]]];
      [destruct Hc; lia|].
    exists r1. split; [assumption|]. split; [assumption|].
    rewrite Hv1. symmetry. apply toQc_frac. apply Hc.
Qed.

Lemma new_common_factor_witness :
  Rational.new (3 * (-5)) (4 * (-5)) = Rational.new 3 4 /\
  (canonical (Rational.mk 3 4) -> Rational.new 3 4 = Ok (Rational.mk 3 4)).
Proof.
  apply (new_common_factor 3 4 (-5) (Rational.mk 3 4)); discriminate.
Defined.

Local Open Scope Qc_scope.

(** X4.  On objects the program can hold, [add], [sub] and [mul] never
    throw and [div] throws only on a zero divisor; each returns the exact
    sum, difference, product or quotient. *)
Theorem Rational_exact (a b : Rational.t) :
  produced a -> produced b ->
  (exists r, Rational.add a b = Ok r /\ toQc r = toQc a + toQc b) /\
  (exists r, Rational.sub a b = Ok r /\ toQc r = toQc a - toQc b) /\
  (exists r, Rational.mul a b = Ok r /\ toQc r = toQc a * toQc b) /\
  (Rational.n b <> 0%Z ->
   exists r, Rational.div a b = Ok r /\ toQc r = toQc a / toQc b).
Proof.
  intros Ha Hb. apply produced_is_canonical in Ha, Hb.
  destruct Ha as [Ha _], Hb as [Hb _].
  split; [|split; [|split]].
  - destruct (add_ok a b Ha Hb) as [r [E [_ Hv]]]. eauto.
  - destruct (sub_ok a b Ha Hb) as [r [E [_ Hv]]]. eauto.
  - destruct (mul_ok a b Ha Hb) as [r [E [_ Hv]]]. eauto.
  - intros Hn. destruct (div_ok a b Ha Hb Hn) as [r [E [_ Hv]]]. eauto.
Qed.

Lemma Rational_exact_witness :
  (exists r, Rational.add (Rational.mk 1 2) (Rational.mk (-1) 3) = Ok r /\
             toQc r = toQc (Rational.mk 1 2) + toQc (Rational.mk (-1) 3)) /\
  (exists r, Rational.sub (Rational.mk 1 2) (Rational.mk (-1) 3) = Ok r /\
             toQc r = toQc (Rational.mk 1 2) - toQc (Rational.mk (-1) 3)) /\
  (exists r, Rational.mul (Rational.mk 1 2) (Rational.mk (-1) 3) = Ok r /\
             toQc r = toQc (Rational.mk 1 2) * toQc (Rational.mk (-1) 3)) /\
  ((-1)%Z <> 0%Z ->
   exists r, Rational.div (Rational.mk 1 2) (Rational.mk (-1) 3) = Ok r /\
             toQc r = toQc (Rational.mk 1 2) / toQc (Rational.mk (-1) 3)).
Proof.
  apply (Rational_exact (Rational.mk 1 2) (Rational.mk (-1) 3)).
  - apply (produced_new 2 4). reflexivity.
  - apply (produced_new 2 (-6)). reflexivity.
Defined.

(** The value of a canonical object is zero exactly when its numerator is. *)
Lemma canonical_nonzero r : canonical r -> Rational.n r <> 0%Z -> toQc r <> 0.
Proof.
  intros [Hd _] Hn E. apply Hn. now apply toQc_zero.
Qed.

(** X5.  Addition and multiplication of objects the program can hold are
    associative, and multiplication distributes over addition, as
    equalities of the objects returned. *)
Theorem Rational_assoc_distr (a b c ab bc ac : Rational.t) :
  produced a -> produced b -> produced c ->
  (Rational.add a b = Ok ab -> Rational.add b c = Ok bc ->
   Rational.add ab c = Rational.add a bc) /\
  (Rational.mul a b = Ok ab -> Rational.mul b c = Ok bc ->
   Rational.mul ab c = Rational.mul a bc) /\
  (Rational.add b c = Ok bc -> Rational.mul a b = Ok ab ->
   Rational.mul a c = Ok ac ->
   Rational.mul a bc = Rational.add ab ac).
Proof.
  intros Ha Hb Hc. apply produced_is_canonical in Ha, Hb, Hc.
  assert (Hda := proj1 Ha). assert (Hdb := proj1 Hb). assert (Hdc := proj1 Hc).
  split; [|split].
  - intros E1 E2.
    destruct (add_ok a b Hda Hdb) as [r1 [F1 [C1 V1]]].
    destruct (add_ok b c Hdb Hdc) as [r2 [F2 [C2 V2]]].
    rewrite E1 in F1. injection F1 as <-. rewrite E2 in F2. injection F2 as <-.
    destruct (add_ok a bc Hda (proj1 C2)) as [r3 [F3 [C3 V3]]].
    rewrite F3. apply ok_of_value; [|assumption].
    destruct (add_ok ab c (proj1 C1) Hdc) as [r4 [F4 [C4 V4]]].
    exists r4. split; [assumption|]. split; [assumption|].
    rewrite V4, V3, V1, V2. ring.
  - intros E1 E2.
    destruct (mul_ok a b Hda Hdb) as [r1 [F1 [C1 V1]]].
    destruct (mul_ok b c Hdb Hdc) as [r2 [F2 [C2 V2]]].
    rewrite E1 in F1. injection F1 as <-. rewrite E2 in F2. injection F2 as <-.
    destruct (mul_ok a bc Hda (proj1 C2)) as [r3 [F3 [C3 V3]]].
    rewrite F3. apply ok_of_value; [|assumption].
    destruct (mul_ok ab c (proj1 C1) Hdc) as [r4 [F4 [C4 V4]]].
    exists r4. split; [assumption|]. split; [assumption|].
    rewrite V4, V3, V1, V2. ring.
  - intros E1 E2 E3.
    destruct (add_ok b c Hdb Hdc) as [r1 [F1 [C1 V1]]].
    destruct (mul_ok a b Hda Hdb) as [r2 [F2 [C2 V2]]].
    destruct (mul_ok a c Hda Hdc) as [r3 [F3 [C3 V3]]].
    rewrite E1 in F1. injection F1 as <-. rewrite E2 in F2. injection F2 as <-.
    rewrite E3 in F3. injection F3 as <-.
    destruct (add_ok ab ac (proj1 C2) (proj1 C3)) as [r4 [F4 [C4 V4]]].
    rewrite F4. apply ok_of_value; [|assumption].
    destruct (mul_ok a bc Hda (proj1 C1)) as [r5 [F5 [C5 V5]]].
    exists r5. split; [assumption|]. split; [assumption|].
    rewrite V5, V4, V1, V2, V3. ring.
Qed.

Lemma Rational_assoc_distr_witness :
  Rational.add (Rational.mk 5 6) (Rational.mk 1 4)
  = Rational.add (Rational.mk 1 2) (Rational.mk 7 12) /\
  Rational.mul (Rational.mk 1 6) (Rational.mk 1 4)
  = Rational.mul (Rational.mk 1 2) (Rational.mk 1 12) /\
  Rational.mul (Rational.mk 1 2) (Rational.mk 7 12)
  = Rational.add (Rational.mk 1 6) (Rational.mk 1 8).
Proof.
  assert (Ha : produced (Rational.mk 1 2)) by (apply (produced_new 1 2); reflexivity).
  assert (Hb : produced (Rational.mk 1 3)) by (apply (produced_new 1 3); reflexivity).
  assert (Hc : produced (Rational.mk 1 4)) by (apply (produced_new 1 4); reflexivity).
  split; [|split].
  - apply (proj1 (Rational_assoc_distr (Rational.mk 1 2) (Rational.mk 1 3)
                    (Rational.mk 1 4) (Rational.mk 5 6) (Rational.mk 7 12)
                    (Rational.mk 1 8) Ha Hb Hc)); reflexivity.
  - apply (proj1 (proj2 (Rational_assoc_distr (Rational.mk 1 2) (Rational.mk 1 3)
                    (Rational.mk 1 4) (Rational.mk 1 6) (Rational.mk 1 12)
                    (Rational.mk 1 8) Ha Hb Hc))); reflexivity.
  - apply (proj2 (proj2 (Rational_assoc_distr (Rational.mk 1 2) (Rational.mk 1 3)
                    (Rational.mk 1 4) (Rational.mk 1 6) (Rational.mk 7 12)
                    (Rational.mk 1 8) Ha Hb Hc))); reflexivity.
Defined.

(** X6.  [sub] undoes [add] and [div] undoes [mul]: on objects the program
    can hold, [a.add(b).sub(b)] is [a], [a.mul(b).div(b)] is [a] for a
    non-zero [b], [a.sub(a)] is 0/1 and [a.div(a)] is 1/1 for a non-zero
    [a]. *)
Theorem Rational_inverse (a b s p : Rational.t) :
  produced a -> produced b ->
  (Rational.add a b = Ok s -> Rational.sub s b = Ok a) /\
  (Rational.n b <> 0%Z -> Rational.mul a b = Ok p -> Rational.div p b = Ok a) /\
  Rational.sub a a = Ok (Rational.mk 0 1) /\
  (Rational.n a <> 0%Z -> Rational.div a a = Ok (Rational.mk 1 1)).
Proof.
  intros Ha Hb. apply produced_is_canonical in Ha, Hb.
  assert (Hda := proj1 Ha). assert (Hdb := proj1 Hb).
  split; [|split; [|split]].
  - intros E. destruct (add_ok a b Hda Hdb) as [r [F [C V]]].
    rewrite E in F. injection F as <-.
    apply ok_of_value; [|assumption].
    destruct (sub_ok s b (proj1 C) Hdb) as [r' [F' [C' V']]].
    exists r'. split; [assumption|]. split; [assumption|]. rewrite V', V. ring.
  - intros Hn E. destruct (mul_ok a b Hda Hdb) as [r [F [C V]]].
    rewrite E in F. injection F as <-.
    apply ok_of_value; [|assumption].
    destruct (div_ok p b (proj1 C) Hdb Hn) as [r' [F' [C' V']]].
    exists r'. split; [assumption|]. split; [assumption|]. rewrite V', V.
    field. now apply canonical_nonzero.
  - apply ok_of_value; [|apply canonical_int].
    destruct (sub_ok a a Hda Hda) as [r' [F' [C' V']]].
    exists r'. split; [assumption|]. split; [assumption|].
    rewrite V', toQc_int, Zc_0. ring.
  - intros Hn. apply ok_of_value; [|apply canonical_int].
    destruct (div_ok a a Hda Hda Hn) as [r' [F' [C' V']]].
    exists r'. split; [assumption|]. split; [assumption|].
    rewrite V', toQc_int, Zc_1. field. now apply canonical_nonzero.
Qed.

Lemma Rational_inverse_witness :
  Rational.sub (Rational.mk 1 6) (Rational.mk (-1) 3) = Ok (Rational.mk 1 2) /\
  Rational.div (Rational.mk (-1) 6) (Rational.mk (-1) 3) = Ok (Rational.mk 1 2) /\
  Rational.div (Rational.mk 1 2) (Rational.mk 1 2) = Ok (Rational.mk 1 1).
Proof.
  assert (Ha : produced (Rational.mk 1 2)) by (apply (produced_new 1 2); reflexivity).
  assert (Hb : produced (Rational.mk (-1) 3)) by (apply (produced_new 1 (-3)); reflexivity).
  split; [|split].
  - apply (proj1 (Rational_inverse (Rational.mk 1 2) (Rational.mk (-1) 3)
                    (Rational.mk 1 6) (Rational.mk (-1) 6) Ha Hb)). reflexivity.
  - apply (proj1 (proj2 (Rational_inverse (Rational.mk 1 2) (Rational.mk (-1) 3)
                    (Rational.mk 1 6) (Rational.mk (-1) 6) Ha Hb)));
      [discriminate|reflexivity].
  - apply (proj2 (proj2 (proj2 (Rational_inverse (Rational.mk 1 2) (Rational.mk (-1) 3)
                    (Rational.mk 1 6) (Rational.mk (-1) 6) Ha Hb)))). discriminate.
Defined.

Local Close Scope Qc_scope.
